(** * MysoreScript: the tree-walking interpreter and its tiered hand-off

    A shallow embedding of the interpreter translation unit
    (Value::set, Context::lookupSymbol / setSymbol and the interpret /
    evaluate methods of the AST classes) together with the AST classes
    of ast.hh, followed by the properties of that code. *)

From Stdlib Require Import ZArith Lia.
From stdpp Require Import base option list gmap sets strings.

Set Default Proof Using "Type".
Local Open Scope string_scope.

(** ** Tagged values *)

(** An [Obj] is a machine word; the model looks at it through
    [(intptr_t)o]. *)
Definition Obj := Z.

Definition nullptr : Obj := 0%Z.

(** [intptr_t] arithmetic is 64-bit two's complement. *)
Definition wrap64 (z : Z) : Z :=
  ((z + 2 ^ 63) `mod` 2 ^ 64 - 2 ^ 63)%Z.

(** [needsGC]: a real pointer has to be visible to the collector, an
    integer hidden in the pointer value has not. *)
Definition needsGC (o : Obj) : bool :=
  negb (o =? 0)%Z && (Z.land o 7 =? 0)%Z.

(** Modelled from the spec: [createSmallInteger] and [isInteger] of the
    runtime header; the encoding is the one Number::evaluateExpr writes
    out, [(value << 3) | 1]. *)
Definition createSmallInteger (i : Z) : Obj :=
  Z.lor (wrap64 (Z.shiftl i 3)) 1.

Definition isInteger (o : Obj) : bool := Z.testbit o 0.

(** The condition of [if] and [while]: [((intptr_t)v) & ~7]. *)
Definition truthy (v : Obj) : bool :=
  negb (Z.land v (Z.lnot 7) =? 0)%Z.

(** ** Interpreter value cells *)

(** The uncollectable part of the collector's heap: the slots handed out
    by [GC_malloc_uncollectable] that are still live, and the number of
    slots handed out so far. *)
Record Roots := mkRoots {
  slots : gmap nat Obj;
  allocated : nat;
}.

(** The source signals no error of its own.  Where it dereferences a
    null pointer, fails an assert, reads outside its storage, divides by
    zero or calls through the null method pointer, the behaviour of the
    program is undefined or the process is aborted: the run ends there.
    A [Fault] says where a run has ended in this way. *)
Inductive Fault :=
| UnboundName          (* the null result of lookupSymbol is dereferenced *)
| AssertFailed         (* an assert of the source does not hold *)
| InvalidAccess        (* a load or store outside any live storage *)
| DivideByZero
| SelectorNotFound.

(** What a function of the source does: it returns, or the run ends in
    it with a fault, or the model has run out of fuel. *)
Inductive Result (A : Type) :=
| Ok (a : A)
| Err (f : Fault)
| OutOfFuel.
Arguments Ok {A} a.
Arguments Err {A} f.
Arguments OutOfFuel {A}.

#[global] Instance Result_bind : MBind Result := λ A B k r,
  match r with
  | Ok a => k a
  | Err f => Err f
  | OutOfFuel => OutOfFuel
  end.

Definition assert (b : bool) : Result unit :=
  if b then Ok () else Err AssertFailed.

Module Value.

(** Modelled from the spec: the members of Interpreter::Value, declared
    in the interpreter header.  [object] is the value held, [holder] the
    uncollectable slot that makes it a root ([None] is the null
    holder). *)
Record t := mk {
  object : Obj;
  holder : option nat;
}.

(** Modelled from the spec: the default constructor of Value, an empty
    cell that holds null and has no slot. *)
Definition empty : t := mk nullptr None.

Definition GC_malloc_uncollectable (r : Roots) : nat * Roots :=
  (allocated r, mkRoots (slots r) (S (allocated r))).

Definition GC_free (h : nat) (r : Roots) : Roots :=
  mkRoots (delete h (slots r)) (allocated r).

Definition store (h : nat) (o : Obj) (r : Roots) : Roots :=
  mkRoots (<[h := o]> (slots r)) (allocated r).

(** Value::set *)
Definition set (v : t) (o : Obj) (r : Roots) : Result (t * Roots) :=
  if needsGC (object v) && negb (needsGC o) then
    match holder v with
    | None => Err AssertFailed
    | Some h => Ok (mk o None, GC_free h r)
    end
  else if negb (needsGC (object v)) && needsGC o then
    match holder v with
    | Some _ => Err AssertFailed
    | None =>
        let '(h, r') := GC_malloc_uncollectable r in
        Ok (mk o (Some h), store h o r')
    end
  else if needsGC (object v) && needsGC o then
    match holder v with
    | None => Err InvalidAccess
    | Some h => Ok (mk o (Some h), store h o r)
    end
  else Ok (mk o (holder v), r).

(** A run of [set] calls on one cell. *)
Fixpoint setAll (v : t) (os : list Obj) (r : Roots) : Result (t * Roots) :=
  match os with
  | [] => Ok (v, r)
  | o :: os' => '(v', r') ← set v o r; setAll v' os' r'
  end.

End Value.

(** ** The AST classes *)

(** AST nodes are heap objects with mutable members (the cache of an
    expression, the counters and sets of a closure declaration); a node
    is named by a [NodeId] and its mutable members live in the state
    under that name. *)
Definition NodeId := nat.

Inductive BinOpKind :=
| Multiply | Divide | Add | Subtract
| CmpEq | CmpNe | CmpLt | CmpGt | CmpLE | CmpGE.

Unset Elimination Schemes.
Inductive Expression :=
| Number (node : NodeId) (value : Z)
| StringLiteral (node : NodeId) (value : string)
| BinOp (node : NodeId) (op : BinOpKind) (lhs rhs : Expression)
| VarRef (node : NodeId) (name : string)
| Call (node : NodeId) (callee : Expression) (method : option string)
       (arguments : list Expression)
| NewExpr (node : NodeId) (className : string)
| Closure (d : ClosureDecl)
with Statement :=
| ExprStatement (e : Expression)
| Decl (name : string) (init : option Expression)
| Assignment (target : string) (expr : Expression)
| Return (expr : Expression)
| IfStatement (condition : Expression) (body : list Statement)
| WhileLoop (condition : Expression) (body : list Statement)
| ClassDecl (name : option string) (superclassName : string)
            (ivars : list string) (methods : list ClosureDecl)
with ClosureDecl :=
| mkClosureDecl (node : NodeId) (name : string) (parameters : list string)
                (body : list Statement).
Set Elimination Schemes.

Definition Statements := list Statement.

Definition declNode (d : ClosureDecl) : NodeId :=
  let 'mkClosureDecl n _ _ _ := d in n.
Definition declName (d : ClosureDecl) : string :=
  let 'mkClosureDecl _ x _ _ := d in x.
Definition declParameters (d : ClosureDecl) : list string :=
  let 'mkClosureDecl _ _ ps _ := d in ps.
Definition declBody (d : ClosureDecl) : Statements :=
  let 'mkClosureDecl _ _ _ b := d in b.

Definition nodeOf (e : Expression) : NodeId :=
  match e with
  | Number n _ | StringLiteral n _ | BinOp n _ _ _ | VarRef n _
  | Call n _ _ _ | NewExpr n _ => n
  | Closure d => declNode d
  end.

Definition isComparison (op : BinOpKind) : bool :=
  match op with
  | Multiply | Divide | Add | Subtract => false
  | _ => true
  end.

Definition methodName (op : BinOpKind) : option string :=
  match op with
  | Multiply => Some "mul"
  | Divide => Some "div"
  | Add => Some "add"
  | Subtract => Some "sub"
  | _ => None
  end.

Definition b2z (b : bool) : Z := if b then 1%Z else 0%Z.

(** [evaluateWithIntegers] of the ten subclasses; [None] is the division
    by zero, and the arithmetic wraps at the width of [intptr_t]. *)
Definition evaluateWithIntegers (op : BinOpKind) (lhs rhs : Z) : option Z :=
  match op with
  | Multiply => Some (wrap64 (lhs * rhs))
  | Divide => if (rhs =? 0)%Z then None else Some (wrap64 (lhs ÷ rhs))
  | Add => Some (wrap64 (lhs + rhs))
  | Subtract => Some (wrap64 (lhs - rhs))
  | CmpEq => Some (b2z (lhs =? rhs)%Z)
  | CmpNe => Some (b2z (negb (lhs =? rhs)%Z))
  | CmpLt => Some (b2z (lhs <? rhs)%Z)
  | CmpGt => Some (b2z (lhs >? rhs)%Z)
  | CmpLE => Some (b2z (lhs <=? rhs)%Z)
  | CmpGE => Some (b2z (lhs >=? rhs)%Z)
  end.

(** [isConstantExpression]: the default is false, literals override it
    with true, and a BinOp asks both operands. *)
Fixpoint isConstantExpression (e : Expression) : bool :=
  match e with
  | Number _ _ => true
  | StringLiteral _ _ => true
  | BinOp _ _ lhs rhs => isConstantExpression lhs && isConstantExpression rhs
  | _ => false
  end.

(** ** Code pointers *)

(** A [ClosureInvoke] or [CompiledMethod]: one of the statically defined
    trampolines, or an entry point of native code (what the code
    generator returns, or a method of a built-in class). *)
Inductive Code :=
| closureTrampoline (n : nat)
| methodTrampoline (n : nat)
| Native (k : nat).

#[global] Instance Code_eq_dec : EqDecision Code.
Proof. solve_decision. Defined.

(** The two arrays of trampolines, indexed by the number of arguments. *)
Definition closureTrampolines : list Code := closureTrampoline <$> seq 0 11.
Definition methodTrampolines : list Code := methodTrampoline <$> seq 0 11.

(** ** Capture analysis *)

(** The private members of a ClosureDecl node.  [executionCount] is an
    [int] in the source; the model lets it grow without bound. *)
Record DeclState := mkDeclState {
  executionCount : nat;
  compiledClosure : option Code;
  checked : bool;
  boundVars : gset string;
  decls : gset string;
}.

Definition compileThreshold : nat := 10.

(** The members as the in-class initialisers leave them. *)
Definition freshDecl : DeclState := mkDeclState 0 None false ∅ ∅.

Definition declState (ns : gmap NodeId DeclState) (n : NodeId) : DeclState :=
  default freshDecl (ns !! n).

(** [std::unordered_set::erase] in a loop over a range of names. *)
Definition eraseAll (names : list string) (s : gset string) : gset string :=
  foldl (λ acc x, acc ∖ {[x]}) s names.

(** What a traversal carries: the two sets passed by reference, and the
    members of the closure declarations it meets. *)
Record Uses := mkUses {
  u_decls : gset string;
  u_uses : gset string;
  u_nodes : gmap NodeId DeclState;
}.

(** [collectVarUses] of every AST class, and ClosureDecl::check. *)
Fixpoint collectVarUses (e : Expression) (acc : Uses) : Uses :=
  match e with
  | Number _ _ => acc
  | StringLiteral _ _ => acc
  | BinOp _ _ lhs rhs => collectVarUses rhs (collectVarUses lhs acc)
  | VarRef _ name => mkUses (u_decls acc) ({[name]} ∪ u_uses acc) (u_nodes acc)
  | Call _ callee _ arguments =>
      (fix args (es : list Expression) (acc : Uses) : Uses :=
         match es with
         | [] => acc
         | arg :: es' => args es' (collectVarUses arg acc)
         end) arguments (collectVarUses callee acc)
  | NewExpr _ _ => acc
  | Closure d =>
      (* find all of the variables that are used by this closure *)
      let ns := check d (u_nodes acc) in
      (* add any bound variables to the use list, and the name of this
         closure to the declared list of the enclosing scope *)
      mkUses ({[declName d]} ∪ u_decls acc)
             (boundVars (declState ns (declNode d)) ∪ u_uses acc)
             ns
  end
with collectVarUsesStatement (s : Statement) (acc : Uses) : Uses :=
  match s with
  | ExprStatement e => collectVarUses e acc
  | Decl name _ => mkUses ({[name]} ∪ u_decls acc) (u_uses acc) (u_nodes acc)
  | Assignment target expr =>
      collectVarUses expr
        (mkUses (u_decls acc) ({[target]} ∪ u_uses acc) (u_nodes acc))
  | Return expr => collectVarUses expr acc
  | IfStatement condition body
  | WhileLoop condition body =>
      (fix stmts (ss : list Statement) (acc : Uses) : Uses :=
         match ss with
         | [] => acc
         | s :: ss' => stmts ss' (collectVarUsesStatement s acc)
         end) body (collectVarUses condition acc)
  | ClassDecl _ _ _ _ => acc
  end
with check (d : ClosureDecl) (ns : gmap NodeId DeclState)
    : gmap NodeId DeclState :=
  match d with
  | mkClosureDecl node _ parameters body =>
      let this := declState ns node in
      (* don't do this if we've already done it *)
      if checked this then ns else
      let acc :=
        (fix stmts (ss : list Statement) (acc : Uses) : Uses :=
           match ss with
           | [] => acc
           | s :: ss' => stmts ss' (collectVarUsesStatement s acc)
           end) body (mkUses (decls this) (boundVars this) ns) in
      (* parameters are not bound variables, neither are the variables
         declared in this function *)
      let bound := eraseAll parameters (u_uses acc) in
      let bound := eraseAll (elements (u_decls acc)) bound in
      let this' := declState (u_nodes acc) node in
      <[node := mkDeclState (executionCount this') (compiledClosure this')
                            true bound (u_decls acc)]> (u_nodes acc)
  end.

(** Statements::collectVarUses *)
Definition collectVarUsesStatements (ss : Statements) (acc : Uses) : Uses :=
  foldl (λ acc s, collectVarUsesStatement s acc) acc ss.

(** ** Runtime objects and the interpreter state *)

(** Modelled from the spec: the structures of the runtime header
    (Class, Method, Selector, and the String and Closure objects), of
    which the interpreter reads and writes the members below. *)
Definition ClassRef := nat.
Definition Selector := nat.

(** The three built-in classes are the first three entries of the class
    store. *)
Definition SmallIntClass : ClassRef := 0.
Definition StringClass : ClassRef := 1.
Definition ClosureClass : ClassRef := 2.

Record Method := mkMethod {
  selector : Selector;
  args : nat;
  function : Code;
  methodAST : option ClosureDecl;
}.

Record Class := mkClass {
  superclass : option ClassRef;
  className : string;
  methodList : list Method;
  indexedIVarNames : list string;
}.

(** A [Method*]: the class that owns the method list and the index in
    it. *)
Definition MethodRef : Type := ClassRef * nat.

(** Objects of the collected heap. *)
Inductive Object :=
| StringObject (length : Obj) (characters : string)
| ClosureObject (parameters : Obj) (AST : ClosureDecl) (invoke : Code)
                (bound : list Obj)
| Instance (isa : ClassRef) (ivars : list Obj).

Definition isa (o : Object) : ClassRef :=
  match o with
  | StringObject _ _ => StringClass
  | ClosureObject _ _ _ _ => ClosureClass
  | Instance cls _ => cls
  end.

(** An [Obj*] held by a symbol table: the cell of a global, a slot of an
    argument array or a local of an activation, a bound-variable slot of
    a closure object, an instance-variable slot of an object. *)
Inductive Loc :=
| LGlobal (n : nat)
| LStack (n : nat)
| LBound (closure : Obj) (i : nat)
| LIvar (self : Obj) (i : nat).

#[global] Instance Loc_eq_dec : EqDecision Loc.
Proof. solve_decision. Defined.

(** Modelled from the spec: the members of Interpreter::Context,
    declared in the interpreter header.  [symbols] is the stack of
    symbol tables with [symbols.back()] at the head; [globals] lists the
    cells in the order of their creation (the source only ever adds
    cells and keeps their addresses). *)
Record Context := mkContext {
  globals : list Value.t;
  globalSymbols : gmap string Loc;
  symbols : list (gmap string Loc);
  retVal : Obj;
  isReturning : bool;
}.

Record State := mkState {
  ctx : Context;
  stack : list Obj;                    (* argument arrays and locals *)
  heap : list Object;                  (* gcAlloc'ed objects *)
  roots : Roots;                       (* uncollectable slots *)
  caches : gmap NodeId Value.t;        (* Expression::cache *)
  nodes : gmap NodeId DeclState;       (* members of the ClosureDecls *)
  classes : list Class;
  classTable : gmap string ClassRef;
  selectors : list string;
  currentContext : bool;               (* the file-scope [currentContext]
                                          points to the context *)
}.

Definition setCtx (c : Context) (st : State) : State :=
  mkState c (stack st) (heap st) (roots st) (caches st) (nodes st)
          (classes st) (classTable st) (selectors st) (currentContext st).
Definition setStack (s : list Obj) (st : State) : State :=
  mkState (ctx st) s (heap st) (roots st) (caches st) (nodes st)
          (classes st) (classTable st) (selectors st) (currentContext st).
Definition setHeap (h : list Object) (st : State) : State :=
  mkState (ctx st) (stack st) h (roots st) (caches st) (nodes st)
          (classes st) (classTable st) (selectors st) (currentContext st).
Definition setRoots (r : Roots) (st : State) : State :=
  mkState (ctx st) (stack st) (heap st) r (caches st) (nodes st)
          (classes st) (classTable st) (selectors st) (currentContext st).
Definition setCaches (cs : gmap NodeId Value.t) (st : State) : State :=
  mkState (ctx st) (stack st) (heap st) (roots st) cs (nodes st)
          (classes st) (classTable st) (selectors st) (currentContext st).
Definition setNodes (ns : gmap NodeId DeclState) (st : State) : State :=
  mkState (ctx st) (stack st) (heap st) (roots st) (caches st) ns
          (classes st) (classTable st) (selectors st) (currentContext st).
Definition setClasses (cs : list Class) (st : State) : State :=
  mkState (ctx st) (stack st) (heap st) (roots st) (caches st) (nodes st)
          cs (classTable st) (selectors st) (currentContext st).
Definition setClassTable (t : gmap string ClassRef) (st : State) : State :=
  mkState (ctx st) (stack st) (heap st) (roots st) (caches st) (nodes st)
          (classes st) t (selectors st) (currentContext st).
Definition setSelectors (s : list string) (st : State) : State :=
  mkState (ctx st) (stack st) (heap st) (roots st) (caches st) (nodes st)
          (classes st) (classTable st) s (currentContext st).

(** [currentContext = &c]: there is one context, so the pointer is
    either null or points to it. *)
Definition setCurrentContext (st : State) : State :=
  mkState (ctx st) (stack st) (heap st) (roots st) (caches st) (nodes st)
          (classes st) (classTable st) (selectors st) true.

(** [*currentContext] in a trampoline: through the null pointer that is
    an invalid access. *)
Definition derefCurrentContext (st : State) : Result unit :=
  if currentContext st then Ok () else Err InvalidAccess.

Definition setGlobals (g : list Value.t) (c : Context) : Context :=
  mkContext g (globalSymbols c) (symbols c) (retVal c) (isReturning c).
Definition setGlobalSymbols (g : gmap string Loc) (c : Context) : Context :=
  mkContext (globals c) g (symbols c) (retVal c) (isReturning c).
Definition setSymbols (s : list (gmap string Loc)) (c : Context) : Context :=
  mkContext (globals c) (globalSymbols c) s (retVal c) (isReturning c).
Definition setRetVal (v : Obj) (c : Context) : Context :=
  mkContext (globals c) (globalSymbols c) (symbols c) v (isReturning c).
Definition setIsReturning (b : bool) (c : Context) : Context :=
  mkContext (globals c) (globalSymbols c) (symbols c) (retVal c) b.

(** *** The collected heap *)

(** The k-th object allocated lives at the address [8 * (k + 1)]. *)
Definition addressOf (k : nat) : Obj := (8 * (Z.of_nat k + 1))%Z.

Definition objectAt (o : Obj) (st : State) : option Object :=
  if (0 <? o)%Z && (Z.land o 7 =? 0)%Z
  then heap st !! Z.to_nat (o / 8 - 1)
  else None.

Definition putObject (o : Obj) (x : Object) (st : State) : State :=
  setHeap (<[Z.to_nat (o / 8 - 1) := x]> (heap st)) st.

(** Modelled from the spec: [gcAlloc] of the runtime header, which
    returns a fresh object at a fresh address. *)
Definition gcAlloc (x : Object) (st : State) : Obj * State :=
  (addressOf (length (heap st)), setHeap (heap st ++ [x]) st).

(** *** Loads and stores through an [Obj*] *)

Definition orFault {A} (f : Fault) (o : option A) : Result A :=
  match o with
  | Some a => Ok a
  | None => Err f
  end.

Definition load (l : Loc) (st : State) : Result Obj :=
  match l with
  | LGlobal n => orFault InvalidAccess (Value.object <$> globals (ctx st) !! n)
  | LStack n => orFault InvalidAccess (stack st !! n)
  | LBound c i =>
      match objectAt c st with
      | Some (ClosureObject _ _ _ bound) => orFault InvalidAccess (bound !! i)
      | _ => Err InvalidAccess
      end
  | LIvar o i =>
      match objectAt o st with
      | Some (Instance _ ivars) => orFault InvalidAccess (ivars !! i)
      | _ => Err InvalidAccess
      end
  end.

(** Modelled from the spec: Value::address() of the interpreter header,
    taken to be the address of the [object] member, so that a store
    through the address of a global cell writes that member. *)
Definition store (l : Loc) (v : Obj) (st : State) : Result State :=
  match l with
  | LGlobal n =>
      match globals (ctx st) !! n with
      | Some cell =>
          Ok (setCtx (setGlobals
                (<[n := Value.mk v (Value.holder cell)]> (globals (ctx st)))
                (ctx st)) st)
      | None => Err InvalidAccess
      end
  | LStack n =>
      if decide (n < length (stack st))
      then Ok (setStack (<[n := v]> (stack st)) st)
      else Err InvalidAccess
  | LBound c i =>
      match objectAt c st with
      | Some (ClosureObject p a inv bound) =>
          if decide (i < length bound)
          then Ok (putObject c (ClosureObject p a inv (<[i := v]> bound)) st)
          else Err InvalidAccess
      | _ => Err InvalidAccess
      end
  | LIvar o i =>
      match objectAt o st with
      | Some (Instance cls ivars) =>
          if decide (i < length ivars)
          then Ok (putObject o (Instance cls (<[i := v]> ivars)) st)
          else Err InvalidAccess
      | _ => Err InvalidAccess
      end
  end.

(** ** Interpreter::Context *)

(** Context::lookupSymbol: the top symbol table if there is one, then the
    global symbol table; [None] is the null result. *)
Definition lookupSymbol (c : Context) (name : string) : option Loc :=
  let local :=
    match symbols c with
    | [] => None
    | top :: _ => top !! name
    end in
  match local with
  | Some l => Some l
  | None => globalSymbols c !! name
  end.

(** Context::setSymbol(name, Obj): store through the address found, or
    construct a new cell for a global ([emplace_front(val)] builds the
    cell by storing [val] in an empty one). *)
Definition setSymbol (name : string) (val : Obj) (st : State) : Result State :=
  match lookupSymbol (ctx st) name with
  | None =>
      '(cell, r) ← Value.set Value.empty val (roots st);
      let c := ctx st in
      let addr := LGlobal (length (globals c)) in
      Ok (setRoots r
            (setCtx (setGlobalSymbols (<[name := addr]> (globalSymbols c))
                       (setGlobals (globals c ++ [cell]) c)) st))
  | Some addr => store addr val st
  end.

(** Context::setSymbol(name, Obj* ): bind the name in the top table. *)
Definition setSymbolAddr (name : string) (val : Loc) (st : State)
    : Result State :=
  match symbols (ctx st) with
  | [] => Err InvalidAccess
  | top :: rest =>
      Ok (setCtx (setSymbols (<[name := val]> top :: rest) (ctx st)) st)
  end.

(** Modelled from the spec: pushSymbols and popSymbols of the
    interpreter header; the table pushed is the empty local
    [closureSymbols] of the caller. *)
Definition pushSymbols (st : State) : State :=
  setCtx (setSymbols (∅ :: symbols (ctx st)) (ctx st)) st.

Definition popSymbols (st : State) : State :=
  setCtx (setSymbols (tail (symbols (ctx st))) (ctx st)) st.

(** The loop [for (auto &x : names) c.setSymbol(x, &base[i++])]. *)
Fixpoint bindAll (names : list string) (slot : nat → Loc) (i : nat)
    (st : State) : Result State :=
  match names with
  | [] => Ok st
  | x :: names' =>
      st' ← setSymbolAddr x (slot i) st; bindAll names' slot (S i) st'
  end.

(** ** The class and selector registry *)

(** Modelled from the spec: the registry functions of the runtime
    (lookupSelector, registerClass, lookupClass, methodForSelector,
    compiledMethodForSelector, newObject), which the interpreter calls
    and whose definitions are in another translation unit. *)
Fixpoint indexOf (name : string) (l : list string) : option nat :=
  match l with
  | [] => None
  | x :: l' => if decide (x = name) then Some 0 else S <$> indexOf name l'
  end.

Definition lookupSelector (name : string) (st : State) : Selector * State :=
  match indexOf name (selectors st) with
  | Some i => (S i, st)
  | None => (S (length (selectors st)),
             setSelectors (selectors st ++ [name]) st)
  end.

Definition lookupClass (name : string) (st : State) : option ClassRef :=
  classTable st !! name.

Definition registerClass (name : string) (cls : Class) (st : State) : State :=
  setClassTable (<[name := length (classes st)]> (classTable st))
    (setClasses (classes st ++ [cls]) st).

Fixpoint findMethod (sel : Selector) (ms : list Method) (i : nat)
    : option nat :=
  match ms with
  | [] => None
  | m :: ms' =>
      if decide (selector m = sel) then Some i else findMethod sel ms' (S i)
  end.

Fixpoint methodForSelectorFrom (depth : nat) (cs : list Class)
    (cls : ClassRef) (sel : Selector) : option MethodRef :=
  match depth with
  | 0 => None
  | S depth' =>
      c ← cs !! cls;
      match findMethod sel (methodList c) 0 with
      | Some i => Some (cls, i)
      | None => sup ← superclass c; methodForSelectorFrom depth' cs sup sel
      end
  end.

Definition methodForSelector (cls : ClassRef) (sel : Selector) (st : State)
    : option MethodRef :=
  methodForSelectorFrom (length (classes st)) (classes st) cls sel.

Definition methodAt (m : MethodRef) (st : State) : option Method :=
  c ← classes st !! m.1; methodList c !! m.2.

(** [isInteger(self) ? &SmallIntClass : self->isa] *)
Definition classOf (self : Obj) (st : State) : Result ClassRef :=
  if isInteger self then Ok SmallIntClass
  else orFault InvalidAccess (isa <$> objectAt self st).

Definition compiledMethodForSelector (obj : Obj) (sel : Selector) (st : State)
    : Result Code :=
  cls ← classOf obj st;
  m ← orFault SelectorNotFound (methodForSelector cls sel st);
  orFault SelectorNotFound (function <$> methodAt m st).

Definition newObject (cls : ClassRef) (st : State) : Result (Obj * State) :=
  c ← orFault InvalidAccess (classes st !! cls);
  Ok (gcAlloc (Instance cls (replicate (length (indexedIVarNames c)) nullptr)) st).

(** ** The interpreter *)

(** Modelled from the spec: the conversion of a Value to [Obj] and the
    assignment of an [Obj] to a Value, declared in the interpreter
    header.  Testing or returning the cache reads [object]; assigning to
    it is [set].  The cache of a node starts as the empty cell. *)
Definition cacheOf (st : State) (n : NodeId) : Value.t :=
  default Value.empty (caches st !! n).

Definition thisDecl (st : State) (d : ClosureDecl) : DeclState :=
  declState (nodes st) (declNode d).

Definition setDecl (d : ClosureDecl) (s : DeclState) (st : State) : State :=
  setNodes (<[declNode d := s]> (nodes st)) st.

(** [executionCount++] *)
Definition countExecution (d : ClosureDecl) (st : State) : State :=
  let this := thisDecl st d in
  setDecl d (mkDeclState (S (executionCount this)) (compiledClosure this)
                         (checked this) (boundVars this) (decls this)) st.

(** [compiledClosure = code] *)
Definition setCompiledClosure (d : ClosureDecl) (code : Code) (st : State)
    : State :=
  let this := thisDecl st d in
  setDecl d (mkDeclState (executionCount this) (Some code)
                         (checked this) (boundVars this) (decls this)) st.

(** [self->invoke = code] *)
Definition setInvoke (self : Obj) (code : Code) (st : State) : Result State :=
  match objectAt self st with
  | Some (ClosureObject p a _ bound) =>
      Ok (putObject self (ClosureObject p a code bound) st)
  | _ => Err InvalidAccess
  end.

(** [mth->function = code] *)
Definition setFunction (mth : MethodRef) (code : Code) (st : State)
    : Result State :=
  match classes st !! mth.1 with
  | Some c =>
      match methodList c !! mth.2 with
      | Some m =>
          let m' := mkMethod (selector m) (args m) code (methodAST m) in
          let c' := mkClass (superclass c) (className c)
                            (<[mth.2 := m']> (methodList c))
                            (indexedIVarNames c) in
          Ok (setClasses (<[mth.1 := c']> (classes st)) st)
      | None => Err InvalidAccess
      end
  | None => Err InvalidAccess
  end.

(** Reads [args[0]] to [args[n-1]] of an argument array. *)
Fixpoint loadArgs (base n : nat) (st : State) : Result (list Obj) :=
  match n with
  | 0 => Ok []
  | S n' =>
      v ← load (LStack base) st;
      vs ← loadArgs (S base) n' st;
      Ok (v :: vs)
  end.

(** The loop of ClosureDecl::evaluateExpr that copies the bound variables
    into the closure. *)
Fixpoint copyBound (C : Obj) (vars : list string) (i : nat) (st : State)
    : Result State :=
  match vars with
  | [] => Ok st
  | var :: vars' =>
      addr ← orFault UnboundName (lookupSymbol (ctx st) var);
      v ← load addr st;
      st' ← store (LBound C i) v st;
      copyBound C vars' (S i) st'
  end.

(** ClosureDecl::evaluateExpr *)
Definition evaluateClosureDecl (d : ClosureDecl) (st : State)
    : Result (Obj * State) :=
  let st := setNodes (check d (nodes st)) st in
  let this := thisDecl st d in
  let vars := elements (boundVars this) in
  let params := length (declParameters d) in
  invoke ← match compiledClosure this with
           | Some code => Ok code
           | None => orFault InvalidAccess (closureTrampolines !! params)
           end;
  let '(C, st) :=
    gcAlloc (ClosureObject (createSmallInteger (Z.of_nat params)) d invoke
                           (replicate (length vars) nullptr)) st in
  st ← setSymbol (declName d) C st;
  st ← copyBound C vars 0 st;
  Ok (C, st).

(** The method table that ClassDecl::interpret constructs. *)
Fixpoint buildMethods (ms : list ClosureDecl) (st : State)
    : Result (list Method * State) :=
  match ms with
  | [] => Ok ([], st)
  | m :: ms' =>
      let '(sel, st) := lookupSelector (declName m) st in
      let n := length (declParameters m) in
      _ ← assert (bool_decide (n ≤ 10)%nat);
      f ← orFault InvalidAccess (methodTrampolines !! n);
      '(rest, st) ← buildMethods ms' st;
      Ok (mkMethod sel n f (Some m) :: rest, st)
  end.

(** The epilogue shared by interpretClosure and interpretMethod. *)
Definition leave (st : State) : Obj * State :=
  let r := retVal (ctx st) in
  (r, popSymbols (setCtx (setIsReturning false (setRetVal nullptr (ctx st))) st)).

Section Interpreter.

(** The code generator, and the native code that it and the runtime
    provide, are outside the interpreter. *)
Variable compileClosure : ClosureDecl → gmap string Loc → Code.
Variable compileMethod : ClosureDecl → ClassRef → gmap string Loc → Code.
Variable nativeClosure : nat → Obj → list Obj → State → Result (Obj * State).
Variable nativeMethod :
  nat → Obj → Selector → list Obj → State → Result (Obj * State).

(** The step of interpretClosure that compiles at the threshold. *)
Definition tierUpClosure (d : ClosureDecl) (self : Obj) (st : State)
    : Result State :=
  if decide (executionCount (thisDecl st d) = compileThreshold) then
    let code := compileClosure d (globalSymbols (ctx st)) in
    st ← setInvoke self code st;
    Ok (setCompiledClosure d code st)
  else Ok st.

(** The step of interpretMethod that compiles at the threshold. *)
Definition tierUpMethod (d : ClosureDecl) (mth : MethodRef) (cls : ClassRef)
    (st : State) : Result State :=
  if decide (executionCount (thisDecl st d) = compileThreshold) then
    let code := compileMethod d cls (globalSymbols (ctx st)) in
    st ← setFunction mth code st;
    Ok (setCompiledClosure d code st)
  else Ok st.

Fixpoint evaluate (fuel : nat) (e : Expression) (st : State) {struct fuel}
    : Result (Obj * State) :=
  match fuel with
  | 0 => OutOfFuel
  | S fuel =>
      (* return the cached result, if there is one *)
      if negb (Value.object (cacheOf st (nodeOf e)) =? 0)%Z
      then Ok (Value.object (cacheOf st (nodeOf e)), st)
      else
        '(r, st) ← evaluateExpr fuel e st;
        (* cache it, if it's a constant expression *)
        if isConstantExpression e then
          '(cell, rts) ← Value.set (cacheOf st (nodeOf e)) r (roots st);
          Ok (r, setRoots rts
                   (setCaches (<[nodeOf e := cell]> (caches st)) st))
        else Ok (r, st)
  end

with evaluateExpr (fuel : nat) (e : Expression) (st : State) {struct fuel}
    : Result (Obj * State) :=
  match fuel with
  | 0 => OutOfFuel
  | S fuel =>
      match e with
      | Number _ value => Ok (Z.lor (wrap64 (Z.shiftl value 3)) 1, st)
      | StringLiteral _ value =>
          Ok (gcAlloc (StringObject
                         (createSmallInteger (Z.of_nat (String.length value)))
                         value) st)
      | BinOp _ op lhs rhs =>
          '(LHS, st) ← evaluate fuel lhs st;
          '(RHS, st) ← evaluate fuel rhs st;
          if isComparison op || (isInteger LHS && isInteger RHS) then
            r ← orFault DivideByZero
                  (evaluateWithIntegers op (Z.shiftr LHS 3) (Z.shiftr RHS 3));
            Ok (createSmallInteger r, st)
          else
            name ← orFault InvalidAccess (methodName op);
            let '(sel, st) := lookupSelector name st in
            mth ← compiledMethodForSelector LHS sel st;
            callCompiledMethod fuel mth LHS sel [RHS] st
      | VarRef _ name =>
          addr ← orFault UnboundName (lookupSymbol (ctx st) name);
          v ← load addr st;
          Ok (v, st)
      | Call _ callee method arguments =>
          '(obj, st) ← evaluate fuel callee st;
          _ ← assert (negb (obj =? 0)%Z);
          '(argv, st) ← evaluateArguments fuel arguments 0 st;
          let st := setCurrentContext st in
          match method with
          | None =>
              (* no method: we're trying to invoke a closure *)
              match objectAt obj st with
              | Some (ClosureObject _ _ invoke _) =>
                  callCompiledClosure fuel invoke obj argv st
              | Some _ => Err AssertFailed
              | None => Err InvalidAccess
              end
          | Some name =>
              let '(sel, st) := lookupSelector name st in
              _ ← assert (bool_decide (sel ≠ 0%nat));
              mth ← compiledMethodForSelector obj sel st;
              callCompiledMethod fuel mth obj sel argv st
          end
      | NewExpr _ className =>
          cls ← orFault InvalidAccess (lookupClass className st);
          newObject cls st
      | Closure d => evaluateClosureDecl d st
      end
  end

(** The loop of Call::evaluateExpr over the arguments; [i] counts the
    entries of [args[10]] filled so far. *)
with evaluateArguments (fuel : nat) (es : list Expression) (i : nat)
    (st : State) {struct fuel} : Result (list Obj * State) :=
  match fuel with
  | 0 => OutOfFuel
  | S fuel =>
      match es with
      | [] => Ok ([], st)
      | arg :: es' =>
          _ ← assert (bool_decide (i < 10)%nat);
          '(v, st) ← evaluate fuel arg st;
          '(vs, st) ← evaluateArguments fuel es' (S i) st;
          Ok (v :: vs, st)
      end
  end

(** Modelled from the spec: callCompiledClosure, the adapter of the
    runtime that makes the indirect call of the right arity.  Calling
    [closureTrampoline n] packs the arguments into a local array and
    enters interpretClosure with the AST of the closure and with
    [*currentContext], which only Call::evaluateExpr assigns. *)
with callCompiledClosure (fuel : nat) (code : Code) (closure : Obj)
    (argv : list Obj) (st : State) {struct fuel} : Result (Obj * State) :=
  match fuel with
  | 0 => OutOfFuel
  | S fuel =>
      match code with
      | closureTrampoline n =>
          if decide (length argv < n)%nat then Err InvalidAccess else
          match objectAt closure st with
          | Some (ClosureObject _ AST _ _) =>
              _ ← derefCurrentContext st;
              let base := length (stack st) in
              interpretClosure fuel AST closure base
                (setStack (stack st ++ take n argv) st)
          | _ => Err InvalidAccess
          end
      | Native k => nativeClosure k closure argv st
      | methodTrampoline _ => Err InvalidAccess
      end
  end

(** Modelled from the spec: callCompiledMethod.  Calling
    [methodTrampoline n] packs the arguments, finds the method of the
    receiver for the selector and enters interpretMethod with its AST. *)
with callCompiledMethod (fuel : nat) (code : Code) (self : Obj)
    (sel : Selector) (argv : list Obj) (st : State) {struct fuel}
    : Result (Obj * State) :=
  match fuel with
  | 0 => OutOfFuel
  | S fuel =>
      match code with
      | methodTrampoline n =>
          if decide (length argv < n)%nat then Err InvalidAccess else
          cls ← classOf self st;
          mth ← orFault InvalidAccess (methodForSelector cls sel st);
          m ← orFault InvalidAccess (methodAt mth st);
          AST ← orFault InvalidAccess (methodAST m);
          _ ← derefCurrentContext st;
          let base := length (stack st) in
          interpretMethod fuel AST mth self sel base
            (setStack (stack st ++ take n argv) st)
      | Native k => nativeMethod k self sel argv st
      | closureTrampoline _ => Err InvalidAccess
      end
  end

(** ClosureDecl::interpretClosure; [args] is the index of the first
    slot of the argument array. *)
with interpretClosure (fuel : nat) (d : ClosureDecl) (self : Obj)
    (args : nat) (st : State) {struct fuel} : Result (Obj * State) :=
  match fuel with
  | 0 => OutOfFuel
  | S fuel =>
      let st := countExecution d st in
      (* if we've interpreted this enough times, compile it *)
      st ← tierUpClosure d self st;
      (* if we now have a compiled version, call it *)
      st ← match compiledClosure (thisDecl st d) with
           | Some code =>
               argv ← loadArgs args (length (declParameters d)) st;
               '(_, st) ← callCompiledClosure fuel code self argv st;
               Ok st
           | None => Ok st
           end;
      (* a new symbol table, with the parameters and the bound
         variables *)
      let st := pushSymbols st in
      st ← bindAll (declParameters d) (λ i, LStack (args + i)) 0 st;
      st ← bindAll (elements (boundVars (thisDecl st d))) (LBound self) 0 st;
      st ← interpretStatements fuel (declBody d) st;
      Ok (leave st)
  end

(** ClosureDecl::interpretMethod *)
with interpretMethod (fuel : nat) (d : ClosureDecl) (mth : MethodRef)
    (self : Obj) (sel : Selector) (args : nat) (st : State) {struct fuel}
    : Result (Obj * State) :=
  match fuel with
  | 0 => OutOfFuel
  | S fuel =>
      let st := setNodes (check d (nodes st)) st in
      cls ← classOf self st;
      let st := countExecution d st in
      (* if we've interpreted this method enough times, compile it *)
      st ← tierUpMethod d mth cls st;
      (* if we now have a compiled version, execute it *)
      match compiledClosure (thisDecl st d) with
      | Some code =>
          argv ← loadArgs args (length (declParameters d)) st;
          callCompiledMethod fuel code self sel argv st
      | None =>
          let st := pushSymbols st in
          st ← bindAll (declParameters d) (λ i, LStack (args + i)) 0 st;
          (* the locals [self] and [cmdObj] *)
          let selfAddr := length (stack st) in
          let st :=
            setStack (stack st ++ [self; createSmallInteger (Z.of_nat sel)])
                     st in
          st ← setSymbolAddr "self" (LStack selfAddr) st;
          st ← setSymbolAddr "cmd" (LStack (S selfAddr)) st;
          c ← orFault InvalidAccess (classes st !! cls);
          st ← bindAll (indexedIVarNames c) (LIvar self) 0 st;
          st ← interpretStatements fuel (declBody d) st;
          Ok (leave st)
      end
  end

(** The [interpret] methods of the statement classes. *)
with interpret (fuel : nat) (s : Statement) (st : State) {struct fuel}
    : Result State :=
  match fuel with
  | 0 => OutOfFuel
  | S fuel =>
      match s with
      | ExprStatement e => '(_, st) ← evaluate fuel e st; Ok st
      | Decl name init =>
          '(v, st) ← match init with
                     | Some e => evaluate fuel e st
                     | None => Ok (nullptr, st)
                     end;
          setSymbol name v st
      | Assignment target expr =>
          '(v, st) ← evaluate fuel expr st;
          setSymbol target v st
      | Return expr =>
          '(v, st) ← evaluate fuel expr st;
          Ok (setCtx (setIsReturning true (setRetVal v (ctx st))) st)
      | IfStatement condition body =>
          '(v, st) ← evaluate fuel condition st;
          if truthy v then interpretStatements fuel body st else Ok st
      | WhileLoop condition body =>
          '(v, st) ← evaluate fuel condition st;
          if truthy v then
            st ← interpretStatements fuel body st;
            interpret fuel (WhileLoop condition body) st
          else Ok st
      | ClassDecl name superclassName ivars methods =>
          let clsName := default superclassName name in
          let sup := match name with
                     | Some _ => lookupClass superclassName st
                     | None => None
                     end in
          '(ms, st) ← buildMethods methods st;
          Ok (registerClass clsName (mkClass sup clsName ms ivars) st)
      end
  end

(** Statements::interpret *)
with interpretStatements (fuel : nat) (ss : Statements) (st : State)
    {struct fuel} : Result State :=
  match fuel with
  | 0 => OutOfFuel
  | S fuel =>
      match ss with
      | [] => Ok st
      | s :: ss' =>
          (* if we've executed a return statement, stop executing *)
          if isReturning (ctx st) then Ok st else
          st ← interpret fuel s st;
          interpretStatements fuel ss' st
      end
  end.

End Interpreter.

Arguments evaluate : simpl never.
Arguments evaluateExpr : simpl never.
Arguments evaluateArguments : simpl never.
Arguments callCompiledClosure : simpl never.
Arguments callCompiledMethod : simpl never.
Arguments interpretClosure : simpl never.
Arguments interpretMethod : simpl never.
Arguments interpret : simpl never.
Arguments interpretStatements : simpl never.

(** ** Predicates of the statements below *)

(** The integers a small integer can hold: 61 bits. *)
Definition smallIntRange (n : Z) : Prop := (- 2 ^ 60 ≤ n < 2 ^ 60)%Z.

(** The values of the data model: null, a small integer (low bit 1), a
    heap pointer (not null, low three bits 000). *)
Definition isValue (v : Obj) : Prop :=
  v = nullptr ∨ isInteger v = true ∨ needsGC v = true.

(** The integer a small integer stands for: [((intptr_t)v) >> 3], as
    BinOp::evaluateExpr untags its operands. *)
Definition getInteger (v : Obj) : Z := Z.shiftr v 3.

(** The cell holds a live uncollectable slot, which contains the value
    held, exactly when the value held is a heap pointer. *)
Definition rooted (v : Value.t) (r : Roots) : Prop :=
  match Value.holder v with
  | Some h =>
      needsGC (Value.object v) = true ∧ slots r !! h = Some (Value.object v)
  | None => needsGC (Value.object v) = false
  end.

(** What one call [set(o)] does to the slot of the cell, by the kind of
    the value held before and of the value stored. *)
Definition transition (v : Value.t) (r : Roots) (o : Obj)
    (v' : Value.t) (r' : Roots) : Prop :=
  match needsGC (Value.object v), needsGC o with
  | false, true =>
      (* a slot is allocated *)
      Value.holder v' = Some (allocated r)
      ∧ allocated r' = S (allocated r)
      ∧ slots r' = <[allocated r := o]> (slots r)
  | true, false =>
      (* the slot is freed *)
      Value.holder v' = None
      ∧ allocated r' = allocated r
      ∧ ∃ h, Value.holder v = Some h ∧ slots r' = delete h (slots r)
  | true, true =>
      (* the slot is updated in place *)
      Value.holder v' = Value.holder v
      ∧ allocated r' = allocated r
      ∧ ∃ h, Value.holder v = Some h ∧ slots r' = <[h := o]> (slots r)
  | false, false =>
      Value.holder v' = None ∧ r' = r
  end.

(** The context after a Return has stored [v]. *)
Definition returning (v : Obj) (st : State) : State :=
  setCtx (setIsReturning true (setRetVal v (ctx st))) st.

(** The cache of the node is empty, as the cache of a node that is not a
    constant expression always is (only Expression::evaluate assigns it,
    and only for a constant expression). *)
Definition uncached (st : State) (e : Expression) : Prop :=
  Value.object (cacheOf st (nodeOf e)) = nullptr.

(** ** Specification of the capture analysis *)

(** The names a statement declares for the enclosing closure: those of
    its declarations and of the closures declared in it. *)
Fixpoint declaredNames (e : Expression) : gset string :=
  match e with
  | BinOp _ _ lhs rhs => declaredNames lhs ∪ declaredNames rhs
  | Call _ callee _ arguments =>
      declaredNames callee
      ∪ (fix args (es : list Expression) : gset string :=
           match es with
           | [] => ∅
           | arg :: es' => declaredNames arg ∪ args es'
           end) arguments
  | Closure d => {[declName d]}
  | _ => ∅
  end.

Fixpoint declaredNamesStatement (s : Statement) : gset string :=
  match s with
  | ExprStatement e | Return e | Assignment _ e => declaredNames e
  | Decl name init => {[name]} ∪ from_option declaredNames ∅ init
  | IfStatement condition body
  | WhileLoop condition body =>
      declaredNames condition
      ∪ (fix stmts (ss : list Statement) : gset string :=
           match ss with
           | [] => ∅
           | s :: ss' => declaredNamesStatement s ∪ stmts ss'
           end) body
  | ClassDecl _ _ _ _ => ∅
  end.

Definition declaredNamesStatements (ss : Statements) : gset string :=
  ⋃ (declaredNamesStatement <$> ss).

(** The names referenced anywhere inside an expression or statement; a
    nested closure reports its free variables. *)
Fixpoint referencedNames (e : Expression) : gset string :=
  match e with
  | Number _ _ | StringLiteral _ _ | NewExpr _ _ => ∅
  | BinOp _ _ lhs rhs => referencedNames lhs ∪ referencedNames rhs
  | VarRef _ name => {[name]}
  | Call _ callee _ arguments =>
      referencedNames callee
      ∪ (fix args (es : list Expression) : gset string :=
           match es with
           | [] => ∅
           | arg :: es' => referencedNames arg ∪ args es'
           end) arguments
  | Closure d => freeVariables d
  end
with referencedNamesStatement (s : Statement) : gset string :=
  match s with
  | ExprStatement e | Return e => referencedNames e
  | Decl _ init => from_option referencedNames ∅ init
  | Assignment target e => {[target]} ∪ referencedNames e
  | IfStatement condition body
  | WhileLoop condition body =>
      referencedNames condition
      ∪ (fix stmts (ss : list Statement) : gset string :=
           match ss with
           | [] => ∅
           | s :: ss' => referencedNamesStatement s ∪ stmts ss'
           end) body
  | ClassDecl _ _ _ _ => ∅
  end
(** The free variables of a closure, in the words of the spec: the names
    referenced in the body that are neither declared in the body nor
    parameters. *)
with freeVariables (d : ClosureDecl) : gset string :=
  match d with
  | mkClosureDecl _ _ parameters body =>
      ((fix stmts (ss : list Statement) : gset string :=
          match ss with
          | [] => ∅
          | s :: ss' => referencedNamesStatement s ∪ stmts ss'
          end) body
       ∖ declaredNamesStatements body)
      ∖ list_to_set parameters
  end.

(** ** Inputs of the examples *)

Definition builtinClasses : list Class :=
  [mkClass None "SmallInt" [] []; mkClass None "String" [] [];
   mkClass None "Closure" [] []].

(** The state of a fresh interpreter. *)
Definition initialState : State :=
  mkState (mkContext [] ∅ [] nullptr false) [] [] (mkRoots ∅ 0) ∅ ∅
          builtinClasses ∅ [] false.

(** The value of a variable in the current scope, null when it has
    none. *)
Definition valueOf (name : string) (st : State) : Obj :=
  match lookupSymbol (ctx st) name with
  | Some addr => match load addr st with Ok v => v | _ => nullptr end
  | None => nullptr
  end.

(** A code generator and native code for the examples.  The native
    closure counts its runs in the global [compiled] and returns the
    small integer 100; the native method counts its runs in the global
    [sent] and returns null. *)
Definition exampleCompileClosure (d : ClosureDecl) (g : gmap string Loc)
    : Code := Native 0.

Definition exampleCompileMethod (d : ClosureDecl) (cls : ClassRef)
    (g : gmap string Loc) : Code := Native 0.

Definition countRun (name : string) (st : State) : Result State :=
  let runs := if decide (valueOf name st = nullptr)
              then createSmallInteger 0 else valueOf name st in
  setSymbol name (runs + 8)%Z st.

Definition exampleNativeClosure (k : nat) (closure : Obj) (argv : list Obj)
    (st : State) : Result (Obj * State) :=
  st' ← countRun "compiled" st; Ok (createSmallInteger 100, st').

Definition exampleNativeMethod (k : nat) (self : Obj) (sel : Selector)
    (argv : list Obj) (st : State) : Result (Obj * State) :=
  st' ← countRun "sent" st; Ok (nullptr, st').

Definition run : nat → Statements → State → Result State :=
  interpretStatements exampleCompileClosure exampleCompileMethod
                      exampleNativeClosure exampleNativeMethod.

Definition eval : nat → Expression → State → Result (Obj * State) :=
  evaluate exampleCompileClosure exampleCompileMethod
           exampleNativeClosure exampleNativeMethod.

(** [var n = 0; func f() { n = n + 1; return n; }] and then [r = f();]
    a number of times: the body counts its own interpretations in the
    bound variable [n] and returns the count. *)
Definition counting : ClosureDecl :=
  mkClosureDecl 1 "f" []
    [Assignment "n" (BinOp 2 Add (VarRef 3 "n") (Number 4 1));
     Return (VarRef 5 "n")].

Definition tierProgram (calls : nat) : Statements :=
  Decl "n" (Some (Number 6 0))
  :: ExprStatement (Closure counting)
  :: replicate calls (Assignment "r" (Call 7 (VarRef 8 "f") None [])).

(** [h] holds the small integer 5 when [func h(k) { return h(k); }] is
    evaluated. *)
Definition recursive : ClosureDecl :=
  mkClosureDecl 1 "h" ["k"]
    [Return (Call 2 (VarRef 3 "h") None [VarRef 4 "k"])].

Definition recursiveProgram : Statements :=
  [Decl "h" (Some (Number 5 5)); Assignment "c" (Closure recursive)].

(** [func f() { var x = y; return x; }] *)
Definition initialised : ClosureDecl :=
  mkClosureDecl 1 "f" []
    [Decl "x" (Some (VarRef 2 "y")); Return (VarRef 3 "x")].

(** [while (1) { return 2; }] *)
Definition returningLoop : Statement :=
  WhileLoop (Number 1 1) [Return (Number 2 2)].

(** The state after [var h = 5;]. *)
Definition boundToFive : State :=
  match run 5 [Decl "h" (Some (Number 5 5))] initialState with
  | Ok st => st
  | _ => initialState
  end.

(** A context whose top symbol table binds [z], over a table that binds
    [x] and [y]; the globals bind [x] and [z] and not [y]. *)
Definition shadowedContext : Context :=
  mkContext [Value.empty; Value.empty]
            {["x" := LGlobal 0; "z" := LGlobal 1]}
            [{["z" := LStack 2]}; {["x" := LStack 0; "y" := LStack 1]}]
            nullptr false.

(** The state after [var a = 1;]. *)
Definition afterDecl : State :=
  match run 5 [Decl "a" (Some (Number 2 1))] initialState with
  | Ok st => st
  | _ => initialState
  end.

(** The state in the loop [while (1) { return 2; }] after its first
    iteration. *)
Definition afterReturn : State :=
  match eval 2 (Number 1 1) initialState with
  | Ok (_, st) => returning (createSmallInteger 2) st
  | _ => initialState
  end.

(** [func outer(y) { func inner() { ... } return inner(); } r = outer(5);]
    with the body of [inner] given. *)
Definition nestedProgram (innerBody : Statements) : Statements :=
  [ExprStatement
     (Closure
        (mkClosureDecl 1 "outer" ["y"]
           [ExprStatement (Closure (mkClosureDecl 2 "inner" [] innerBody));
            Return (Call 3 (VarRef 4 "inner") None [])]));
   Assignment "r" (Call 5 (VarRef 6 "outer") None [Number 7 5])].

(** ** Statements of the specification that the code does not meet *)

(** C2 as stated: the slot filled for the closure's own name holds the
    value the name had before the closure was bound to it. *)
Definition capturesPreviousBinding (d : ClosureDecl) (st : State) : Prop :=
  ∀ C st' i addr old,
    evaluateClosureDecl d st = Ok (C, st') →
    elements (boundVars (declState (check d (nodes st)) (declNode d))) !! i
      = Some (declName d) →
    lookupSymbol (ctx st) (declName d) = Some addr →
    load addr st = Ok old →
    load (LBound C i) st' = Ok old.

Definition exec : nat → Statement → State → Result State :=
  interpret exampleCompileClosure exampleCompileMethod
            exampleNativeClosure exampleNativeMethod.

(** What stays true in the loop [while (1) { return 2; }] once its body
    has returned: isReturning is set and the condition is cached. *)
Definition loopInvariant (st : State) : Prop :=
  isReturning (ctx st) = true
  ∧ Value.object (cacheOf st 1) = createSmallInteger 1.

(** ** What the cells of constant expressions hold *)

(** What a constant expression evaluates to: a small integer, or a
    pointer to a String object. *)
Definition constantValue (v : Obj) (st : State) : Prop :=
  isInteger v = true ∨ ∃ len s, objectAt v st = Some (StringObject len s).

(** The built-in classes of small integers and of strings have no
    methods (ast.hh, on BinOp::isConstantExpression: methods of the
    String class that take constant expressions are not there). *)
Definition plainBuiltins (st : State) : Prop :=
  ∀ cls, cls = SmallIntClass ∨ cls = StringClass →
    ∃ c, classes st !! cls = Some c
         ∧ methodList c = [] ∧ superclass c = None.

(** A cell that is not empty holds the value of a constant
    expression. *)
Definition goodCaches (st : State) : Prop :=
  ∀ n, Value.object (cacheOf st n) = nullptr
       ∨ constantValue (Value.object (cacheOf st n)) st.

Definition wellFormed (st : State) : Prop :=
  plainBuiltins st ∧ goodCaches st.

(** From [st] to [st'] no cell that held a value has changed, no String
    object has changed and no class without methods has changed. *)
Record kept (st st' : State) : Prop := mkKept {
  kept_caches :
    ∀ n, Value.object (cacheOf st n) ≠ nullptr → cacheOf st' n = cacheOf st n;
  kept_strings :
    ∀ o len s, objectAt o st = Some (StringObject len s) →
               objectAt o st' = Some (StringObject len s);
  kept_classes :
    ∀ cls c, classes st !! cls = Some c → methodList c = [] →
             classes st' !! cls = Some c;
}.

(** The same, and no cell has been assigned at all. *)
Definition calm (st st' : State) : Prop :=
  caches st' = caches st ∧ kept st st'.

Definition sound (st st' : State) : Prop :=
  kept st st' ∧ (wellFormed st → wellFormed st').

(** What is asked of native code: it has no access to the cells of the
    AST, to String objects or to the built-in classes. *)
Definition soundClosureCode
    (native : nat → Obj → list Obj → State → Result (Obj * State)) : Prop :=
  ∀ k closure argv st r st',
    native k closure argv st = Ok (r, st') → sound st st'.

Definition soundMethodCode
    (native : nat → Obj → Selector → list Obj → State → Result (Obj * State))
    : Prop :=
  ∀ k self sel argv st r st',
    native k self sel argv st = Ok (r, st') → sound st st'.

(** ** Activations *)

(** The fault of a result, if it is one. *)
Definition fault {A} (r : Result A) : option Fault :=
  match r with
  | Err f => Some f
  | _ => None
  end.

(** An activation of one of the functions of the interpreter: the
    function, its arguments and the state it is entered in. *)
Inductive Activation :=
| Evaluate (fuel : nat) (e : Expression) (st : State)
| EvaluateExpr (fuel : nat) (e : Expression) (st : State)
| EvaluateArguments (fuel : nat) (es : list Expression) (i : nat) (st : State)
| CallCompiledClosure (fuel : nat) (code : Code) (closure : Obj)
    (argv : list Obj) (st : State)
| CallCompiledMethod (fuel : nat) (code : Code) (self : Obj) (sel : Selector)
    (argv : list Obj) (st : State)
| InterpretClosure (fuel : nat) (d : ClosureDecl) (self : Obj) (args : nat)
    (st : State)
| InterpretMethod (fuel : nat) (d : ClosureDecl) (mth : MethodRef) (self : Obj)
    (sel : Selector) (args : nat) (st : State)
| Interpret (fuel : nat) (s : Statement) (st : State)
| InterpretStatements (fuel : nat) (ss : Statements) (st : State).

Section Activations.

Variable compileClosure : ClosureDecl → gmap string Loc → Code.
Variable compileMethod : ClosureDecl → ClassRef → gmap string Loc → Code.
Variable nativeClosure : nat → Obj → list Obj → State → Result (Obj * State).
Variable nativeMethod :
  nat → Obj → Selector → list Obj → State → Result (Obj * State).

Local Abbreviation evaluate :=
  (evaluate compileClosure compileMethod nativeClosure nativeMethod).
Local Abbreviation evaluateExpr :=
  (evaluateExpr compileClosure compileMethod nativeClosure nativeMethod).
Local Abbreviation evaluateArguments :=
  (evaluateArguments compileClosure compileMethod nativeClosure nativeMethod).
Local Abbreviation interpret :=
  (interpret compileClosure compileMethod nativeClosure nativeMethod).
Local Abbreviation interpretStatements :=
  (interpretStatements compileClosure compileMethod nativeClosure
                       nativeMethod).
Local Abbreviation interpretClosure :=
  (interpretClosure compileClosure compileMethod nativeClosure nativeMethod).
Local Abbreviation interpretMethod :=
  (interpretMethod compileClosure compileMethod nativeClosure nativeMethod).
Local Abbreviation callCompiledClosure :=
  (callCompiledClosure compileClosure compileMethod nativeClosure
                       nativeMethod).
Local Abbreviation callCompiledMethod :=
  (callCompiledMethod compileClosure compileMethod nativeClosure
                      nativeMethod).

(** The fault an activation ends with, if it ends with one. *)
Definition outcome (a : Activation) : option Fault :=
  match a with
  | Evaluate fuel e st => fault (evaluate fuel e st)
  | EvaluateExpr fuel e st => fault (evaluateExpr fuel e st)
  | EvaluateArguments fuel es i st => fault (evaluateArguments fuel es i st)
  | CallCompiledClosure fuel code closure argv st =>
      fault (callCompiledClosure fuel code closure argv st)
  | CallCompiledMethod fuel code self sel argv st =>
      fault (callCompiledMethod fuel code self sel argv st)
  | InterpretClosure fuel d self args st =>
      fault (interpretClosure fuel d self args st)
  | InterpretMethod fuel d mth self sel args st =>
      fault (interpretMethod fuel d mth self sel args st)
  | Interpret fuel s st => fault (interpret fuel s st)
  | InterpretStatements fuel ss st => fault (interpretStatements fuel ss st)
  end.

(** [calls a b]: the activation [a], running, makes the call [b].  One
    rule for every call of one of these functions in the source, with
    what has to have happened in [a] before control is there. *)
Inductive calls : Activation → Activation → Prop :=
(* Expression::evaluate: no cached result *)
| calls_evaluateExpr fuel e st :
    Value.object (cacheOf st (nodeOf e)) = nullptr →
    calls (Evaluate (S fuel) e st) (EvaluateExpr fuel e st)
(* BinOp::evaluateExpr: lhs, rhs, the method of the left-hand side *)
| calls_lhs fuel n op lhs rhs st :
    calls (EvaluateExpr (S fuel) (BinOp n op lhs rhs) st)
          (Evaluate fuel lhs st)
| calls_rhs fuel n op lhs rhs st LHS st1 :
    evaluate fuel lhs st = Ok (LHS, st1) →
    calls (EvaluateExpr (S fuel) (BinOp n op lhs rhs) st)
          (Evaluate fuel rhs st1)
| calls_operator fuel n op lhs rhs st LHS st1 RHS st2 name sel st3 mth :
    evaluate fuel lhs st = Ok (LHS, st1) →
    evaluate fuel rhs st1 = Ok (RHS, st2) →
    isComparison op || (isInteger LHS && isInteger RHS) = false →
    methodName op = Some name →
    lookupSelector name st2 = (sel, st3) →
    compiledMethodForSelector LHS sel st3 = Ok mth →
    calls (EvaluateExpr (S fuel) (BinOp n op lhs rhs) st)
          (CallCompiledMethod fuel mth LHS sel [RHS] st3)
(* Call::evaluateExpr: the callee, the arguments, the closure or the
   method *)
| calls_callee fuel n callee method arguments st :
    calls (EvaluateExpr (S fuel) (Call n callee method arguments) st)
          (Evaluate fuel callee st)
| calls_arguments fuel n callee method arguments st obj st1 :
    evaluate fuel callee st = Ok (obj, st1) →
    obj ≠ nullptr →
    calls (EvaluateExpr (S fuel) (Call n callee method arguments) st)
          (EvaluateArguments fuel arguments 0 st1)
| calls_closure fuel n callee arguments st obj st1 argv st2 p AST invoke bound :
    evaluate fuel callee st = Ok (obj, st1) →
    obj ≠ nullptr →
    evaluateArguments fuel arguments 0 st1 = Ok (argv, st2) →
    objectAt obj (setCurrentContext st2)
      = Some (ClosureObject p AST invoke bound) →
    calls (EvaluateExpr (S fuel) (Call n callee None arguments) st)
          (CallCompiledClosure fuel invoke obj argv (setCurrentContext st2))
| calls_method fuel n callee name arguments st obj st1 argv st2 sel st3 mth :
    evaluate fuel callee st = Ok (obj, st1) →
    obj ≠ nullptr →
    evaluateArguments fuel arguments 0 st1 = Ok (argv, st2) →
    lookupSelector name (setCurrentContext st2) = (sel, st3) →
    sel ≠ 0%nat →
    compiledMethodForSelector obj sel st3 = Ok mth →
    calls (EvaluateExpr (S fuel) (Call n callee (Some name) arguments) st)
          (CallCompiledMethod fuel mth obj sel argv st3)
(* the loop over the arguments *)
| calls_argument fuel arg es i st :
    (i < 10)%nat →
    calls (EvaluateArguments (S fuel) (arg :: es) i st) (Evaluate fuel arg st)
| calls_next_argument fuel arg es i st v st1 :
    (i < 10)%nat →
    evaluate fuel arg st = Ok (v, st1) →
    calls (EvaluateArguments (S fuel) (arg :: es) i st)
          (EvaluateArguments fuel es (S i) st1)
(* the trampolines *)
| calls_closureTrampoline fuel n closure argv st p AST invoke bound :
    ¬ (length argv < n)%nat →
    objectAt closure st = Some (ClosureObject p AST invoke bound) →
    currentContext st = true →
    calls (CallCompiledClosure (S fuel) (closureTrampoline n) closure argv st)
          (InterpretClosure fuel AST closure (length (stack st))
             (setStack (stack st ++ take n argv) st))
| calls_methodTrampoline fuel n self sel argv st cls mth m AST :
    ¬ (length argv < n)%nat →
    classOf self st = Ok cls →
    methodForSelector cls sel st = Some mth →
    methodAt mth st = Some m →
    methodAST m = Some AST →
    currentContext st = true →
    calls (CallCompiledMethod (S fuel) (methodTrampoline n) self sel argv st)
          (InterpretMethod fuel AST mth self sel (length (stack st))
             (setStack (stack st ++ take n argv) st))
(* ClosureDecl::interpretClosure: the compiled version, then the body *)
| calls_compiledClosure fuel d self args st st1 code argv :
    tierUpClosure compileClosure d self (countExecution d st) = Ok st1 →
    compiledClosure (thisDecl st1 d) = Some code →
    loadArgs args (length (declParameters d)) st1 = Ok argv →
    calls (InterpretClosure (S fuel) d self args st)
          (CallCompiledClosure fuel code self argv st1)
| calls_closureBody fuel d self args st st1 st2 st3 st4 :
    tierUpClosure compileClosure d self (countExecution d st) = Ok st1 →
    match compiledClosure (thisDecl st1 d) with
    | Some code =>
        argv ← loadArgs args (length (declParameters d)) st1;
        '(_, st) ← callCompiledClosure fuel code self argv st1;
        Ok st
    | None => Ok st1
    end = Ok st2 →
    bindAll (declParameters d) (λ i, LStack (args + i)) 0 (pushSymbols st2)
      = Ok st3 →
    bindAll (elements (boundVars (thisDecl st3 d))) (LBound self) 0 st3
      = Ok st4 →
    calls (InterpretClosure (S fuel) d self args st)
          (InterpretStatements fuel (declBody d) st4)
(* ClosureDecl::interpretMethod: the compiled version, or the body *)
| calls_compiledMethod fuel d mth self sel args st cls st1 code argv :
    classOf self (setNodes (check d (nodes st)) st) = Ok cls →
    tierUpMethod compileMethod d mth cls
      (countExecution d (setNodes (check d (nodes st)) st)) = Ok st1 →
    compiledClosure (thisDecl st1 d) = Some code →
    loadArgs args (length (declParameters d)) st1 = Ok argv →
    calls (InterpretMethod (S fuel) d mth self sel args st)
          (CallCompiledMethod fuel code self sel argv st1)
| calls_methodBody fuel d mth self sel args st cls st1 st2 st3 st4 c st5 :
    classOf self (setNodes (check d (nodes st)) st) = Ok cls →
    tierUpMethod compileMethod d mth cls
      (countExecution d (setNodes (check d (nodes st)) st)) = Ok st1 →
    compiledClosure (thisDecl st1 d) = None →
    bindAll (declParameters d) (λ i, LStack (args + i)) 0 (pushSymbols st1)
      = Ok st2 →
    setSymbolAddr "self" (LStack (length (stack st2)))
      (setStack (stack st2 ++ [self; createSmallInteger (Z.of_nat sel)]) st2)
      = Ok st3 →
    setSymbolAddr "cmd" (LStack (S (length (stack st2)))) st3 = Ok st4 →
    classes st4 !! cls = Some c →
    bindAll (indexedIVarNames c) (LIvar self) 0 st4 = Ok st5 →
    calls (InterpretMethod (S fuel) d mth self sel args st)
          (InterpretStatements fuel (declBody d) st5)
(* the statements *)
| calls_expression fuel e st :
    calls (Interpret (S fuel) (ExprStatement e) st) (Evaluate fuel e st)
| calls_initialiser fuel name e st :
    calls (Interpret (S fuel) (Decl name (Some e)) st) (Evaluate fuel e st)
| calls_assigned fuel target e st :
    calls (Interpret (S fuel) (Assignment target e) st) (Evaluate fuel e st)
| calls_returned fuel e st :
    calls (Interpret (S fuel) (Return e) st) (Evaluate fuel e st)
| calls_if_condition fuel condition body st :
    calls (Interpret (S fuel) (IfStatement condition body) st)
          (Evaluate fuel condition st)
| calls_if_body fuel condition body st v st1 :
    evaluate fuel condition st = Ok (v, st1) →
    truthy v = true →
    calls (Interpret (S fuel) (IfStatement condition body) st)
          (InterpretStatements fuel body st1)
| calls_while_condition fuel condition body st :
    calls (Interpret (S fuel) (WhileLoop condition body) st)
          (Evaluate fuel condition st)
| calls_while_body fuel condition body st v st1 :
    evaluate fuel condition st = Ok (v, st1) →
    truthy v = true →
    calls (Interpret (S fuel) (WhileLoop condition body) st)
          (InterpretStatements fuel body st1)
| calls_while_again fuel condition body st v st1 st2 :
    evaluate fuel condition st = Ok (v, st1) →
    truthy v = true →
    interpretStatements fuel body st1 = Ok st2 →
    calls (Interpret (S fuel) (WhileLoop condition body) st)
          (Interpret fuel (WhileLoop condition body) st2)
(* Statements::interpret *)
| calls_statement fuel s ss st :
    isReturning (ctx st) = false →
    calls (InterpretStatements (S fuel) (s :: ss) st) (Interpret fuel s st)
| calls_next_statement fuel s ss st st1 :
    isReturning (ctx st) = false →
    interpret fuel s st = Ok st1 →
    calls (InterpretStatements (S fuel) (s :: ss) st)
          (InterpretStatements fuel ss st1).

(** The state an activation is entered in, and the state it returns
    in when it returns. *)
Definition entry (a : Activation) : State :=
  match a with
  | Evaluate _ _ st | EvaluateExpr _ _ st | EvaluateArguments _ _ _ st
  | CallCompiledClosure _ _ _ _ st | CallCompiledMethod _ _ _ _ _ st
  | InterpretClosure _ _ _ _ st | InterpretMethod _ _ _ _ _ _ st
  | Interpret _ _ st | InterpretStatements _ _ st => st
  end.

Definition stateOf {A} (r : Result (A * State)) : option State :=
  match r with
  | Ok (_, st) => Some st
  | _ => None
  end.

Definition returned (a : Activation) : option State :=
  match a with
  | Evaluate fuel e st => stateOf (evaluate fuel e st)
  | EvaluateExpr fuel e st => stateOf (evaluateExpr fuel e st)
  | EvaluateArguments fuel es i st => stateOf (evaluateArguments fuel es i st)
  | CallCompiledClosure fuel code closure argv st =>
      stateOf (callCompiledClosure fuel code closure argv st)
  | CallCompiledMethod fuel code self sel argv st =>
      stateOf (callCompiledMethod fuel code self sel argv st)
  | InterpretClosure fuel d self args st =>
      stateOf (interpretClosure fuel d self args st)
  | InterpretMethod fuel d mth self sel args st =>
      stateOf (interpretMethod fuel d mth self sel args st)
  | Interpret fuel s st =>
      match interpret fuel s st with Ok st' => Some st' | _ => None end
  | InterpretStatements fuel ss st =>
      match interpretStatements fuel ss st with
      | Ok st' => Some st'
      | _ => None
      end
  end.

(** [later st st']: the state [st'] comes after [st] in a run.  From one
    to the next, an activation of a function of the interpreter has run
    and returned; or the state has changed in any way that assigns no
    cell (every other statement of the source: stores, allocations,
    symbol tables, counters); or an empty cell has been assigned, as at
    the end of Expression::evaluate (a cell is a member of its node, and
    it is assigned only after it was found empty). *)
Inductive later : State → State → Prop :=
| later_now st : later st st
| later_run a st st1 st2 :
    entry a = st → returned a = Some st1 → later st1 st2 → later st st2
| later_quiet st st1 st2 :
    caches st1 = caches st → later st1 st2 → later st st2
| later_fill st n cell rts st2 :
    Value.object (cacheOf st n) = nullptr →
    later (setRoots rts (setCaches (<[n := cell]> (caches st)) st)) st2 →
    later st st2.

End Activations.

(** [a = (1 == z); b = 7;] where [z] is not bound, and the state after
    the evaluation of its literal [1]. *)
Definition unboundOperand : Statements :=
  [Assignment "a" (BinOp 1 CmpEq (Number 2 1) (VarRef 3 "z"));
   Assignment "b" (Number 4 7)].

Definition afterOne : State :=
  match eval 2 (Number 2 1) initialState with
  | Ok (_, st) => st
  | _ => initialState
  end.

(** [1 + 2], the state after its first evaluation, and the state after
    [a = "hi";] has then been interpreted. *)
Definition sum : Expression := BinOp 1 Add (Number 2 1) (Number 3 2).

Definition sumCached : State :=
  match eval 4 sum initialState with
  | Ok (_, st) => st
  | _ => initialState
  end.

Definition afterSum : State :=
  match run 5 [Assignment "a" (StringLiteral 4 "hi")] sumCached with
  | Ok st => st
  | _ => initialState
  end.

(** * Properties *)

Close Scope string_scope.

(** ** Tagged values *)

Lemma land_lnot_7 (v : Z) : Z.land v (Z.lnot 7) = (v / 8 * 8)%Z.
Proof.
  rewrite <- Z.ldiff_land.
  change 7%Z with (Z.ones 3).
  rewrite Z.ldiff_ones_r by lia.
  rewrite Z.shiftr_div_pow2, Z.shiftl_mul_pow2 by lia.
  reflexivity.
Qed.

Lemma truthy_false_iff (v : Obj) : truthy v = false ↔ (0 ≤ v < 8)%Z.
Proof.
  unfold truthy. rewrite land_lnot_7.
  rewrite negb_false_iff, Z.eqb_eq.
  split; intros H.
  - assert (v / 8 = 0)%Z as H0 by lia.
    apply Z.div_small_iff in H0; lia.
  - rewrite Z.div_small by lia. reflexivity.
Qed.

Lemma truthy_spec (v : Obj) : truthy v = true ↔ Z.land v (Z.lnot 7) ≠ 0%Z.
Proof.
  unfold truthy. rewrite negb_true_iff, Z.eqb_neq. reflexivity.
Qed.

Lemma wrap64_small (z : Z) : (- 2 ^ 63 ≤ z < 2 ^ 63)%Z → wrap64 z = z.
Proof.
  intros H. unfold wrap64.
  rewrite Z.mod_small by lia. lia.
Qed.

Lemma lor_8_1 (n : Z) : Z.lor (8 * n) 1 = (8 * n + 1)%Z.
Proof.
  assert (Z.land (8 * n) 1 = 0%Z) as H.
  { change 1%Z with (Z.ones 1). rewrite Z.land_ones by lia.
    change (2 ^ 1)%Z with 2%Z.
    replace (8 * n)%Z with (4 * n * 2)%Z by lia. apply Z.mod_mul. lia. }
  rewrite <- (Z.lxor_lor _ _ H). symmetry. apply Z.add_nocarry_lxor, H.
Qed.

Lemma createSmallInteger_small (n : Z) :
  smallIntRange n → createSmallInteger n = (8 * n + 1)%Z.
Proof.
  intros [Hlo Hhi]. unfold createSmallInteger.
  rewrite Z.shiftl_mul_pow2 by lia.
  change (2 ^ 3)%Z with 8%Z.
  change (2 ^ 60)%Z with 1152921504606846976%Z in *.
  rewrite wrap64_small.
  - rewrite Z.mul_comm. apply lor_8_1.
  - change (2 ^ 63)%Z with 9223372036854775808%Z. lia.
Qed.

Lemma needsGC_spec (o : Obj) :
  needsGC o = true ↔ o ≠ 0%Z ∧ (o `mod` 8 = 0)%Z.
Proof.
  unfold needsGC.
  rewrite andb_true_iff, negb_true_iff, Z.eqb_neq, Z.eqb_eq.
  change 7%Z with (Z.ones 3). rewrite Z.land_ones by lia.
  reflexivity.
Qed.

Lemma needsGC_truthy (v : Obj) : needsGC v = true → truthy v = true.
Proof.
  intros [Hne Hmod]%needsGC_spec.
  destruct (truthy v) eqn:E; [reflexivity|].
  apply truthy_false_iff in E.
  rewrite Z.mod_small in Hmod by lia. lia.
Qed.

Lemma needsGC_addressOf (k : nat) : needsGC (addressOf k) = true.
Proof.
  apply needsGC_spec. unfold addressOf. split; [lia|].
  rewrite Z.mul_comm. apply Z.mod_mul. lia.
Qed.

Lemma needsGC_nullptr : needsGC nullptr = false.
Proof. reflexivity. Qed.

Lemma isInteger_odd (v : Obj) :
  isInteger v = true → (v `mod` 2 = 1)%Z.
Proof.
  unfold isInteger. intros H.
  rewrite <- Z.bit0_mod, H. reflexivity.
Qed.

Lemma getInteger_zero (v : Obj) : getInteger v = 0%Z ↔ (0 ≤ v < 8)%Z.
Proof.
  unfold getInteger. rewrite Z.shiftr_div_pow2 by lia.
  change (2 ^ 3)%Z with 8%Z.
  rewrite Z.div_small_iff by lia. lia.
Qed.

Lemma isInteger_createSmallInteger (n : Z) :
  isInteger (createSmallInteger n) = true.
Proof.
  unfold isInteger, createSmallInteger.
  rewrite Z.lor_spec. apply orb_true_r.
Qed.

(** ** Value cells *)

Lemma rooted_holder (v : Value.t) (r : Roots) :
  rooted v r → (is_Some (Value.holder v) ↔ needsGC (Value.object v) = true).
Proof.
  unfold rooted. destruct (Value.holder v) as [h|].
  - intros [Hgc _]. split; eauto.
  - intros Hgc. split; [intros [? ?]; discriminate | congruence].
Qed.

Lemma rooted_empty (r : Roots) : rooted Value.empty r.
Proof. reflexivity. Qed.

Lemma set_step (v : Value.t) (r : Roots) (o : Obj) :
  rooted v r →
  ∃ v' r', Value.set v o r = Ok (v', r')
    ∧ Value.object v' = o
    ∧ rooted v' r'
    ∧ transition v r o v' r'.
Proof.
  unfold rooted, transition, Value.set.
  destruct v as [obj hold]; simpl.
  destruct hold as [h|]; simpl.
  - intros [Hgc Hslot]. rewrite Hgc. simpl.
    destruct (needsGC o) eqn:Ho; simpl.
    + eexists _, _. split; [reflexivity|]. simpl.
      rewrite lookup_insert_eq. eauto 10.
    + eexists _, _. split; [reflexivity|]. simpl. eauto 10.
  - intros Hgc. rewrite Hgc. simpl.
    destruct (needsGC o) eqn:Ho; simpl.
    + eexists _, _. split; [reflexivity|]. simpl.
      rewrite lookup_insert_eq. eauto 10.
    + eexists _, _. split; [reflexivity|]. simpl. eauto.
Qed.

Lemma setAll_rooted (os : list Obj) (v : Value.t) (r : Roots) :
  rooted v r →
  ∃ v' r', Value.setAll v os r = Ok (v', r')
    ∧ rooted v' r'
    ∧ Value.object v' = default (Value.object v) (last os).
Proof.
  revert v r. induction os as [|o os IH]; intros v r Hv; simpl.
  - eauto.
  - destruct (set_step v r o Hv) as (v1 & r1 & -> & Hobj & Hv1 & _). simpl.
    destruct (IH v1 r1 Hv1) as (v' & r' & -> & Hv' & Hlast).
    eexists _, _. split; [reflexivity|]. split; [assumption|].
    rewrite Hlast, Hobj, last_cons. by destruct (last os).
Qed.

(** C9.  A cell that starts rooted (as the empty cell is) stays so over
    every run of [set] calls: each call succeeds, leaves the last value
    stored in the cell, and the cell holds a live uncollectable slot
    exactly when that value is a heap pointer.  The next call allocates
    a slot when a heap pointer replaces a value that is none, frees the
    slot in the opposite case, and writes the existing slot in place,
    with no allocation, when both are heap pointers. *)
Theorem value_cell_root_discipline (v : Value.t) (r : Roots) (os : list Obj) :
  rooted v r →
  ∃ v' r', Value.setAll v os r = Ok (v', r')
    ∧ Value.object v' = default (Value.object v) (last os)
    ∧ rooted v' r'
    ∧ (is_Some (Value.holder v') ↔ needsGC (Value.object v') = true)
    ∧ ∀ o, ∃ v'' r'', Value.set v' o r' = Ok (v'', r'')
        ∧ Value.object v'' = o
        ∧ rooted v'' r''
        ∧ transition v' r' o v'' r''.
Proof.
  intros Hv.
  destruct (setAll_rooted os v r Hv) as (v' & r' & Hrun & Hv' & Hlast).
  exists v', r'. repeat split; try assumption.
  - apply (rooted_holder v' r' Hv').
  - apply (rooted_holder v' r' Hv').
  - intros o. apply set_step, Hv'.
Qed.

(** ** Symbol lookup *)

Lemma lookupSymbol_top (c : Context) (top : gmap string Loc)
    (deeper : list (gmap string Loc)) (name : string) (l : Loc) :
  symbols c = top :: deeper →
  top !! name = Some l →
  lookupSymbol c name = Some l.
Proof. intros Hsym Htop. unfold lookupSymbol. by rewrite Hsym, Htop. Qed.

Lemma lookupSymbol_miss (c : Context) (top : gmap string Loc)
    (deeper : list (gmap string Loc)) (name : string) :
  symbols c = top :: deeper →
  top !! name = None →
  lookupSymbol c name = globalSymbols c !! name.
Proof. intros Hsym Htop. unfold lookupSymbol. by rewrite Hsym, Htop. Qed.

Lemma lookupSymbol_no_frame (c : Context) (name : string) :
  symbols c = [] → lookupSymbol c name = globalSymbols c !! name.
Proof. intros Hsym. unfold lookupSymbol. by rewrite Hsym. Qed.

(** C10.  Context::lookupSymbol consults the top symbol table, then the
    global symbol table, and nothing else.  With [top] on top of the
    stack of tables: (1) a name that [top] binds resolves to that
    binding, whatever the global table and the deeper tables have for
    it; (2) a name that [top] does not bind resolves to what the global
    table has for it, the null result when it has nothing; (3) so a
    name bound in a deeper table and not in [top] resolves to the
    global cell of that name, or to null, and never to the deeper
    binding unless the global table holds that same address; (4) the
    result is the same with any other tables below [top]; (5) in a
    context whose global table is empty and whose tables below [top]
    are the same, only [top] decides. *)
Theorem lookupSymbol_skips_deeper_frames
    (c : Context) (top : gmap string Loc) (deeper : list (gmap string Loc))
    (name : string) :
  symbols c = top :: deeper →
  (∀ l, top !! name = Some l → lookupSymbol c name = Some l)
  ∧ (top !! name = None → lookupSymbol c name = globalSymbols c !! name)
  ∧ (∀ frame l,
       frame ∈ deeper → frame !! name = Some l → top !! name = None →
       lookupSymbol c name = globalSymbols c !! name
       ∧ (globalSymbols c !! name = None → lookupSymbol c name = None)
       ∧ (globalSymbols c !! name ≠ Some l → lookupSymbol c name ≠ Some l))
  ∧ (∀ deeper',
       lookupSymbol (setSymbols (top :: deeper') c) name
       = lookupSymbol c name)
  ∧ lookupSymbol (setGlobalSymbols ∅ c) name = top !! name.
Proof.
  intros Hsym. split; [|split; [|split; [|split]]].
  - intros l Htop. by eapply lookupSymbol_top.
  - intros Htop. by eapply lookupSymbol_miss.
  - intros frame l _ _ Htop.
    rewrite (lookupSymbol_miss c top deeper name Hsym Htop).
    split; [reflexivity|]. split; [auto|]. auto.
  - intros deeper'. unfold lookupSymbol. simpl. by rewrite Hsym.
  - unfold lookupSymbol. simpl. rewrite Hsym.
    destruct (top !! name); [reflexivity|apply lookup_empty].
Qed.


(** ** The interpreter *)

Section Properties.

Variable compileClosure : ClosureDecl → gmap string Loc → Code.
Variable compileMethod : ClosureDecl → ClassRef → gmap string Loc → Code.
Variable nativeClosure : nat → Obj → list Obj → State → Result (Obj * State).
Variable nativeMethod :
  nat → Obj → Selector → list Obj → State → Result (Obj * State).

Local Abbreviation evaluate :=
  (evaluate compileClosure compileMethod nativeClosure nativeMethod).
Local Abbreviation evaluateExpr :=
  (evaluateExpr compileClosure compileMethod nativeClosure nativeMethod).
Local Abbreviation interpret :=
  (interpret compileClosure compileMethod nativeClosure nativeMethod).
Local Abbreviation interpretStatements :=
  (interpretStatements compileClosure compileMethod nativeClosure
                       nativeMethod).
Local Abbreviation interpretClosure :=
  (interpretClosure compileClosure compileMethod nativeClosure nativeMethod).
Local Abbreviation interpretMethod :=
  (interpretMethod compileClosure compileMethod nativeClosure nativeMethod).
Local Abbreviation callCompiledClosure :=
  (callCompiledClosure compileClosure compileMethod nativeClosure
                       nativeMethod).
Local Abbreviation callCompiledMethod :=
  (callCompiledMethod compileClosure compileMethod nativeClosure
                      nativeMethod).

(** *** Equations of the statement classes *)

Lemma interpretStatements_nil fuel st :
  interpretStatements (S fuel) [] st = Ok st.
Proof. reflexivity. Qed.

Lemma interpretStatements_cons fuel s ss st :
  interpretStatements (S fuel) (s :: ss) st =
    if isReturning (ctx st) then Ok st
    else st' ← interpret fuel s st; interpretStatements fuel ss st'.
Proof. reflexivity. Qed.

Lemma interpret_If fuel condition body st :
  interpret (S fuel) (IfStatement condition body) st =
    '(v, st1) ← evaluate fuel condition st;
    if truthy v then interpretStatements fuel body st1 else Ok st1.
Proof. reflexivity. Qed.

Lemma interpret_While fuel condition body st :
  interpret (S fuel) (WhileLoop condition body) st =
    '(v, st1) ← evaluate fuel condition st;
    if truthy v then
      st2 ← interpretStatements fuel body st1;
      interpret fuel (WhileLoop condition body) st2
    else Ok st1.
Proof. reflexivity. Qed.

Lemma interpret_Return fuel expr st :
  interpret (S fuel) (Return expr) st =
    '(v, st1) ← evaluate fuel expr st; Ok (returning v st1).
Proof. reflexivity. Qed.

Lemma interpretStatements_returning fuel ss st :
  isReturning (ctx st) = true → interpretStatements (S fuel) ss st = Ok st.
Proof.
  intros H. destruct ss as [|s ss]; [reflexivity|].
  rewrite interpretStatements_cons, H. reflexivity.
Qed.

Lemma bind_assoc {A B C} (r : Result A) (f : A → Result B)
    (g : B → Result C) :
  (r ≫= f) ≫= g = r ≫= (λ a, f a ≫= g).
Proof. destruct r; reflexivity. Qed.

(** A block is run by running a prefix of it and then the rest. *)
Lemma interpretStatements_app pre fuel rest st :
  interpretStatements (length pre + S fuel) (pre ++ rest) st =
    st1 ← interpretStatements (length pre + S fuel) pre st;
    interpretStatements (S fuel) rest st1.
Proof.
  revert st. induction pre as [|s pre IH]; intros st.
  - reflexivity.
  - change (length (s :: pre) + S fuel) with (S (length pre + S fuel)).
    change ((s :: pre) ++ rest) with (s :: (pre ++ rest)).
    rewrite !interpretStatements_cons.
    destruct (isReturning (ctx st)) eqn:Hret.
    + simpl. symmetry. apply interpretStatements_returning, Hret.
    + rewrite bind_assoc.
      destruct (interpret (length pre + S fuel) s st) as [st'| |];
        [|reflexivity..].
      simpl. apply IH.
Qed.

(** *** Truthiness *)

(** C6.  The body of an [if] is interpreted exactly when the value of
    the condition, with the three tag bits cleared, is not zero, and a
    [while] decides in the same way whether to run its body and test
    again.  Among the values of the data model (null, words with the
    low bit set, heap pointers) the false ones are null and the small
    integers that stand for 0; heap pointers and the other small
    integers are true. *)
Theorem truthiness_of_if_and_while :
  (∀ v, truthy v = true ↔ Z.land v (Z.lnot 7) ≠ 0%Z)
  ∧ (∀ fuel condition body st v st1,
       evaluate fuel condition st = Ok (v, st1) →
       interpret (S fuel) (IfStatement condition body) st =
         if truthy v then interpretStatements fuel body st1 else Ok st1)
  ∧ (∀ fuel condition body st v st1,
       evaluate fuel condition st = Ok (v, st1) →
       interpret (S fuel) (WhileLoop condition body) st =
         if truthy v then
           st2 ← interpretStatements fuel body st1;
           interpret fuel (WhileLoop condition body) st2
         else Ok st1)
  ∧ (∀ v, isValue v →
       (truthy v = false ↔
          v = nullptr ∨ (isInteger v = true ∧ getInteger v = 0%Z)))
  ∧ truthy nullptr = false
  ∧ truthy (createSmallInteger 0) = false
  ∧ (∀ v, needsGC v = true → truthy v = true)
  ∧ (∀ n, smallIntRange n → n ≠ 0%Z → truthy (createSmallInteger n) = true).
Proof.
  split; [exact truthy_spec|].
  split; [intros * H; rewrite interpret_If, H; reflexivity|].
  split; [intros * H; rewrite interpret_While, H; reflexivity|].
  assert (∀ n, smallIntRange n → n ≠ 0%Z →
               truthy (createSmallInteger n) = true) as Hint.
  { intros n Hn Hne. rewrite createSmallInteger_small by assumption.
    destruct (truthy (8 * n + 1)%Z) eqn:E; [reflexivity|].
    apply truthy_false_iff in E. lia. }
  split; [|split; [reflexivity|split; [reflexivity|
             split; [exact needsGC_truthy | exact Hint]]]].
  intros v Hv. rewrite truthy_false_iff, getInteger_zero.
  destruct Hv as [->|[Hodd|Hgc]].
  - split; [by left | unfold nullptr; lia].
  - pose proof (isInteger_odd v Hodd) as H2.
    split; [by right | intros [->|[_ ?]]; [discriminate|assumption]].
  - apply needsGC_spec in Hgc as [Hne Hmod].
    split.
    + intros Hsmall. rewrite Z.mod_small in Hmod by assumption. lia.
    + intros [->|[Hodd _]]; [done|].
      apply isInteger_odd in Hodd.
      pose proof (Z.div_mod v 8). pose proof (Z.div_mod v 2). lia.
Qed.

(** *** Return *)

(** C7.  In a block, when the statements before [s] have run without a
    return and [s] leaves isReturning set, the block stops there: its
    result is the state [s] left, whatever statements follow; and in a
    state with isReturning set a block interprets nothing at all.
    Return is such a statement: it evaluates its expression, stores
    the value in retVal and sets isReturning. *)
Theorem return_stops_the_block pre s post fuel st st1 st2 :
  interpretStatements (length pre + S (S fuel)) pre st = Ok st1 →
  isReturning (ctx st1) = false →
  interpret (S fuel) s st1 = Ok st2 →
  isReturning (ctx st2) = true →
  interpretStatements (length pre + S (S fuel)) (pre ++ s :: post) st
    = Ok st2
  ∧ (∀ fuel' ss, interpretStatements (S fuel') ss st2 = Ok st2)
  ∧ (∀ expr v st',
       s = Return expr →
       evaluate fuel expr st1 = Ok (v, st') →
       st2 = returning v st'
       ∧ retVal (ctx st2) = v).
Proof.
  intros Hpre Hnot Hs Hret. split; [|split].
  - rewrite interpretStatements_app, Hpre. simpl.
    rewrite interpretStatements_cons, Hnot, Hs. simpl.
    apply interpretStatements_returning, Hret.
  - intros fuel' ss. apply interpretStatements_returning, Hret.
  - intros expr v st' -> Hev.
    rewrite interpret_Return, Hev in Hs. simpl in Hs.
    injection Hs as <-. split; reflexivity.
Qed.

(** *** While *)

Lemma while_exit fuel condition body st st' :
  interpret fuel (WhileLoop condition body) st = Ok st' →
  ∃ fuel' st0 v,
    evaluate fuel' condition st0 = Ok (v, st') ∧ truthy v = false.
Proof.
  revert st. induction fuel as [|fuel IH]; intros st; [discriminate|].
  rewrite interpret_While.
  destruct (evaluate fuel condition st) as [[v st1]| |] eqn:Hev;
    [simpl|discriminate..].
  destruct (truthy v) eqn:Hv.
  - destruct (interpretStatements fuel body st1) as [st2| |];
      [simpl|discriminate..].
    apply IH.
  - intros [= <-]. eauto.
Qed.

(** C8.  The loop header never reads isReturning.  When the condition
    is true and isReturning is set, an iteration does nothing but
    evaluate the condition (the body stops at once) and the loop tests
    again; so when the condition stays true from a state with
    isReturning set, the loop returns for no amount of fuel.  A loop
    that does return has just evaluated its condition to a false
    value. *)
Theorem while_ignores_isReturning condition body (P : State → Prop) :
  (∀ st, P st → isReturning (ctx st) = true) →
  (∀ fuel st, P st →
     evaluate fuel condition st = OutOfFuel
     ∨ ∃ v st', evaluate fuel condition st = Ok (v, st')
                ∧ truthy v = true ∧ P st') →
  (∀ fuel st v st1,
     evaluate (S fuel) condition st = Ok (v, st1) → truthy v = true →
     isReturning (ctx st1) = true →
     interpret (S (S fuel)) (WhileLoop condition body) st =
       interpret (S fuel) (WhileLoop condition body) st1)
  ∧ (∀ fuel st, P st →
       interpret fuel (WhileLoop condition body) st = OutOfFuel)
  ∧ (∀ fuel st st',
       interpret fuel (WhileLoop condition body) st = Ok st' →
       ∃ fuel' st0 v,
         evaluate fuel' condition st0 = Ok (v, st') ∧ truthy v = false).
Proof.
  intros Hret Hcond. split; [|split].
  - intros fuel st v st1 Hev Hv Hst1.
    rewrite interpret_While, Hev. simpl. rewrite Hv.
    rewrite interpretStatements_returning by assumption. reflexivity.
  - induction fuel as [|fuel IH]; intros st HP; [reflexivity|].
    rewrite interpret_While.
    destruct (Hcond fuel st HP) as [->|(v & st1 & -> & Hv & HP1)];
      [reflexivity|].
    simpl. rewrite Hv.
    destruct fuel as [|fuel]; [reflexivity|].
    rewrite interpretStatements_returning by auto.
    simpl. apply IH, HP1.
  - intros fuel st st'. apply while_exit.
Qed.

(** *** Expression::evaluate and its cache *)

Lemma evaluate_eq fuel e st :
  evaluate (S fuel) e st =
    if negb (Value.object (cacheOf st (nodeOf e)) =? 0)%Z
    then Ok (Value.object (cacheOf st (nodeOf e)), st)
    else
      '(r, st1) ← evaluateExpr fuel e st;
      if isConstantExpression e then
        '(cell, rts) ← Value.set (cacheOf st1 (nodeOf e)) r (roots st1);
        Ok (r, setRoots rts
                 (setCaches (<[nodeOf e := cell]> (caches st1)) st1))
      else Ok (r, st1).
Proof. reflexivity. Qed.

Lemma evaluateExpr_VarRef fuel n name st :
  evaluateExpr (S fuel) (VarRef n name) st =
    addr ← orFault UnboundName (lookupSymbol (ctx st) name);
    v ← load addr st;
    Ok (v, st).
Proof. reflexivity. Qed.

Lemma evaluateExpr_BinOp fuel n op lhs rhs st :
  evaluateExpr (S fuel) (BinOp n op lhs rhs) st =
    '(LHS, st1) ← evaluate fuel lhs st;
    '(RHS, st2) ← evaluate fuel rhs st1;
    if isComparison op || (isInteger LHS && isInteger RHS) then
      r ← orFault DivideByZero
            (evaluateWithIntegers op (Z.shiftr LHS 3) (Z.shiftr RHS 3));
      Ok (createSmallInteger r, st2)
    else
      name ← orFault InvalidAccess (methodName op);
      let '(sel, st3) := lookupSelector name st2 in
      mth ← compiledMethodForSelector LHS sel st3;
      callCompiledMethod fuel mth LHS sel [RHS] st3.
Proof. reflexivity. Qed.

Lemma evaluate_uncached fuel e st :
  uncached st e →
  evaluate (S fuel) e st =
    '(r, st1) ← evaluateExpr fuel e st;
    if isConstantExpression e then
      '(cell, rts) ← Value.set (cacheOf st1 (nodeOf e)) r (roots st1);
      Ok (r, setRoots rts
               (setCaches (<[nodeOf e := cell]> (caches st1)) st1))
    else Ok (r, st1).
Proof. intros H. rewrite evaluate_eq, H. reflexivity. Qed.

Lemma evaluate_fault fuel e st f :
  uncached st e → evaluateExpr fuel e st = Err f →
  evaluate (S fuel) e st = Err f.
Proof. intros Hc He. rewrite evaluate_uncached, He by assumption. reflexivity. Qed.

Lemma set_object v o r v' r' :
  Value.set v o r = Ok (v', r') → Value.object v' = o.
Proof.
  unfold Value.set. intros H.
  repeat (case_match; simplify_eq/=); reflexivity.
Qed.

Lemma lor_1_not_null (z : Z) : Z.lor z 1 ≠ nullptr.
Proof.
  intros H. apply (f_equal (λ x, Z.testbit x 0)) in H.
  rewrite Z.lor_spec, orb_true_r in H. discriminate.
Qed.

Lemma evaluate_literal_not_null fuel e st r st1 :
  match e with Number _ _ | StringLiteral _ _ => True | _ => False end →
  evaluate fuel e st = Ok (r, st1) → r ≠ nullptr.
Proof.
  intros He. destruct fuel as [|fuel]; [discriminate|].
  rewrite evaluate_eq.
  destruct (negb _) eqn:Hhit.
  - intros [= <- <-]. by apply negb_true_iff, Z.eqb_neq in Hhit.
  - destruct fuel as [|fuel]; [discriminate|].
    destruct e; try contradiction.
    + change (evaluateExpr (S fuel) (Number node value) st)
        with (Ok (Z.lor (wrap64 (Z.shiftl value 3)) 1, st)
              : Result (Obj * State)).
      simpl. destruct (Value.set _ _ _) as [[cell rts]| |];
        [|discriminate..].
      intros [= <- <-]. apply lor_1_not_null.
    + change (evaluateExpr (S fuel) (StringLiteral node value) st)
        with (Ok (gcAlloc (StringObject
                    (createSmallInteger (Z.of_nat (String.length value)))
                    value) st) : Result (Obj * State)).
      simpl. destruct (Value.set _ _ _) as [[cell rts]| |];
        [|discriminate..].
      intros [= <- <-]. unfold addressOf, nullptr. lia.
Qed.

(** *** The tiered hand-off *)

Lemma countExecution_count d st :
  executionCount (thisDecl (countExecution d st) d)
    = S (executionCount (thisDecl st d)).
Proof.
  unfold countExecution, thisDecl, setDecl, declState. simpl.
  rewrite lookup_insert_eq. reflexivity.
Qed.

Lemma countExecution_compiled d st :
  compiledClosure (thisDecl (countExecution d st) d)
    = compiledClosure (thisDecl st d).
Proof.
  unfold countExecution, thisDecl, setDecl, declState. simpl.
  rewrite lookup_insert_eq. reflexivity.
Qed.

Lemma tierUpClosure_below d self st :
  executionCount (thisDecl st d) ≠ compileThreshold →
  tierUpClosure compileClosure d self st = Ok st.
Proof. intros H. unfold tierUpClosure. by rewrite decide_False. Qed.

Lemma tierUpMethod_below d mth cls st :
  executionCount (thisDecl st d) ≠ compileThreshold →
  tierUpMethod compileMethod d mth cls st = Ok st.
Proof. intros H. unfold tierUpMethod. by rewrite decide_False. Qed.

Lemma setCompiledClosure_compiled d code st :
  compiledClosure (thisDecl (setCompiledClosure d code st) d) = Some code.
Proof.
  unfold setCompiledClosure, thisDecl, setDecl, declState. simpl.
  rewrite lookup_insert_eq. reflexivity.
Qed.

Lemma tierUpClosure_at d self st st' :
  executionCount (thisDecl st d) = compileThreshold →
  tierUpClosure compileClosure d self st = Ok st' →
  compiledClosure (thisDecl st' d)
    = Some (compileClosure d (globalSymbols (ctx st))).
Proof.
  intros H. unfold tierUpClosure. rewrite decide_True by assumption.
  destruct (setInvoke _ _ _) as [st1| |] eqn:Hinv; [simpl|discriminate..].
  intros [= <-]. apply setCompiledClosure_compiled.
Qed.

Lemma tierUpMethod_at d mth cls st st' :
  executionCount (thisDecl st d) = compileThreshold →
  tierUpMethod compileMethod d mth cls st = Ok st' →
  compiledClosure (thisDecl st' d)
    = Some (compileMethod d cls (globalSymbols (ctx st))).
Proof.
  intros H. unfold tierUpMethod. rewrite decide_True by assumption.
  destruct (setFunction _ _ _) as [st1| |] eqn:Hf; [simpl|discriminate..].
  intros [= <-]. apply setCompiledClosure_compiled.
Qed.

Lemma interpretMethod_eq fuel d mth self sel args st :
  interpretMethod (S fuel) d mth self sel args st =
    let st := setNodes (check d (nodes st)) st in
    cls ← classOf self st;
    let st := countExecution d st in
    st ← tierUpMethod compileMethod d mth cls st;
    match compiledClosure (thisDecl st d) with
    | Some code =>
        argv ← loadArgs args (length (declParameters d)) st;
        callCompiledMethod fuel code self sel argv st
    | None =>
        let st := pushSymbols st in
        st ← bindAll (declParameters d) (λ i, LStack (args + i)) 0 st;
        let selfAddr := length (stack st) in
        let st :=
          setStack (stack st ++ [self; createSmallInteger (Z.of_nat sel)])
                   st in
        st ← setSymbolAddr "self" (LStack selfAddr) st;
        st ← setSymbolAddr "cmd" (LStack (S selfAddr)) st;
        c ← orFault InvalidAccess (classes st !! cls);
        st ← bindAll (indexedIVarNames c) (LIvar self) 0 st;
        st ← interpretStatements fuel (declBody d) st;
        Ok (leave st)
    end.
Proof. reflexivity. Qed.

Lemma interpretClosure_eq fuel d self args st :
  interpretClosure (S fuel) d self args st =
    let st := countExecution d st in
    st ← tierUpClosure compileClosure d self st;
    st ← match compiledClosure (thisDecl st d) with
         | Some code =>
             argv ← loadArgs args (length (declParameters d)) st;
             '(_, st) ← callCompiledClosure fuel code self argv st;
             Ok st
         | None => Ok st
         end;
    let st := pushSymbols st in
    st ← bindAll (declParameters d) (λ i, LStack (args + i)) 0 st;
    st ← bindAll (elements (boundVars (thisDecl st d))) (LBound self) 0 st;
    st ← interpretStatements fuel (declBody d) st;
    Ok (leave st).
Proof. reflexivity. Qed.

(** The method path of the hand-off: once the declaration has a compiled
    version (already, or because this entry reached the threshold),
    interpretMethod returns what the compiled code returns, and the body
    is not interpreted. *)
Lemma interpretMethod_returns_compiled fuel d mth self sel args st cls st2 code :
  classOf self (setNodes (check d (nodes st)) st) = Ok cls →
  tierUpMethod compileMethod d mth cls
    (countExecution d (setNodes (check d (nodes st)) st)) = Ok st2 →
  compiledClosure (thisDecl st2 d) = Some code →
  interpretMethod (S fuel) d mth self sel args st =
    argv ← loadArgs args (length (declParameters d)) st2;
    callCompiledMethod fuel code self sel argv st2.
Proof.
  intros Hcls Htier Hcode.
  rewrite interpretMethod_eq. simpl. rewrite Hcls. simpl.
  rewrite Htier. simpl. rewrite Hcode. reflexivity.
Qed.

(** The closure path: the compiled code is called, its result is
    dropped, and the body is interpreted after it. *)
Lemma interpretClosure_falls_through fuel d self args st st2 code argv r st3 :
  tierUpClosure compileClosure d self (countExecution d st) = Ok st2 →
  compiledClosure (thisDecl st2 d) = Some code →
  loadArgs args (length (declParameters d)) st2 = Ok argv →
  callCompiledClosure fuel code self argv st2 = Ok (r, st3) →
  interpretClosure (S fuel) d self args st =
    st ← bindAll (declParameters d) (λ i, LStack (args + i)) 0
          (pushSymbols st3);
    st ← bindAll (elements (boundVars (thisDecl st d))) (LBound self) 0 st;
    st ← interpretStatements fuel (declBody d) st;
    Ok (leave st).
Proof.
  intros Htier Hcode Hargs Hcall.
  rewrite interpretClosure_eq. simpl.
  rewrite Htier. simpl. rewrite Hcode, Hargs. simpl. rewrite Hcall.
  reflexivity.
Qed.

(** Below the threshold and without a compiled version, both paths
    interpret the body. *)
Lemma interpretClosure_interprets fuel d self args st :
  S (executionCount (thisDecl st d)) ≠ compileThreshold →
  compiledClosure (thisDecl st d) = None →
  interpretClosure (S fuel) d self args st =
    st ← bindAll (declParameters d) (λ i, LStack (args + i)) 0
          (pushSymbols (countExecution d st));
    st ← bindAll (elements (boundVars (thisDecl st d))) (LBound self) 0 st;
    st ← interpretStatements fuel (declBody d) st;
    Ok (leave st).
Proof.
  intros Hcount Hnone.
  rewrite interpretClosure_eq. simpl.
  rewrite tierUpClosure_below by (by rewrite countExecution_count).
  simpl. rewrite countExecution_compiled, Hnone. reflexivity.
Qed.

End Properties.

(** ** Closure construction *)

Lemma objectAt_Some o st x :
  objectAt o st = Some x →
  (0 < o)%Z ∧ (o `mod` 8 = 0)%Z ∧ heap st !! Z.to_nat (o / 8 - 1) = Some x.
Proof.
  unfold objectAt. destruct (_ && _) eqn:E; [|discriminate].
  apply andb_true_iff in E as [Hpos Hlow].
  apply Z.ltb_lt in Hpos. apply Z.eqb_eq in Hlow.
  change 7%Z with (Z.ones 3) in Hlow. rewrite Z.land_ones in Hlow by lia.
  auto.
Qed.

Lemma objectAt_putObject o x y st :
  objectAt o st = Some x → objectAt o (putObject o y st) = Some y.
Proof.
  intros H. pose proof (objectAt_Some _ _ _ H) as (_ & _ & Hk).
  unfold objectAt in *. destruct (_ && _); [|discriminate]. simpl.
  apply list_lookup_insert_eq. by eapply lookup_lt_Some.
Qed.

Lemma objectAt_putObject_ne o o' x y st :
  objectAt o st = Some x → o' ≠ o →
  objectAt o' (putObject o y st) = objectAt o' st.
Proof.
  intros H Hne. pose proof (objectAt_Some _ _ _ H) as (Hpos & Hmod & _).
  unfold objectAt. destruct (_ && _) eqn:E; [|reflexivity].
  apply andb_true_iff in E as [Hpos' Hlow'].
  apply Z.ltb_lt in Hpos'. apply Z.eqb_eq in Hlow'.
  change 7%Z with (Z.ones 3) in Hlow'. rewrite Z.land_ones in Hlow' by lia.
  change (2 ^ 3)%Z with 8%Z in *.
  simpl. apply list_lookup_insert_ne.
  pose proof (Z.div_mod o 8). pose proof (Z.div_mod o' 8). lia.
Qed.

Lemma objectAt_gcAlloc x st :
  objectAt (gcAlloc x st).1 (gcAlloc x st).2 = Some x.
Proof.
  unfold gcAlloc, objectAt, addressOf. simpl.
  replace (8 * (Z.of_nat (length (heap st)) + 1) / 8 - 1)%Z
    with (Z.of_nat (length (heap st)))
    by (rewrite Z.mul_comm, Z.div_mul; lia).
  rewrite Nat2Z.id.
  replace (0 <? _)%Z with true by (symmetry; apply Z.ltb_lt; lia).
  replace (Z.land _ 7 =? 0)%Z with true.
  - simpl. rewrite lookup_app_r, Nat.sub_diag by lia. reflexivity.
  - symmetry. apply Z.eqb_eq.
    change 7%Z with (Z.ones 3). rewrite Z.land_ones by lia.
    rewrite Z.mul_comm. apply Z.mod_mul. lia.
Qed.

Lemma store_LBound_inv C i v st st' :
  store (LBound C i) v st = Ok st' →
  ∃ p a inv bound,
    objectAt C st = Some (ClosureObject p a inv bound)
    ∧ i < length bound
    ∧ st' = putObject C (ClosureObject p a inv (<[i := v]> bound)) st.
Proof.
  simpl. destruct (objectAt C st) as [[| p a inv bound |]|] eqn:Hobj;
    try discriminate.
  case_decide; [|discriminate]. intros [= <-]. eauto 10.
Qed.

Lemma store_LBound_ctx C i v st st' :
  store (LBound C i) v st = Ok st' → ctx st' = ctx st.
Proof. intros (?&?&?&?&?&?& ->)%store_LBound_inv. reflexivity. Qed.

Lemma load_store_LBound C i v st st' :
  store (LBound C i) v st = Ok st' → load (LBound C i) st' = Ok v.
Proof.
  intros (p & a & inv & bound & Hobj & Hi & ->)%store_LBound_inv. simpl.
  erewrite objectAt_putObject by eassumption.
  rewrite list_lookup_insert_eq by assumption. reflexivity.
Qed.

Lemma load_store_LBound_ne C i v st st' addr :
  store (LBound C i) v st = Ok st' →
  addr ≠ LBound C i →
  load addr st' = load addr st.
Proof.
  intros (p & a & inv & bound & Hobj & Hi & ->)%store_LBound_inv Hne.
  destruct addr as [n|n|c j|o j]; simpl; try reflexivity.
  - destruct (decide (c = C)) as [->|Hc].
    + erewrite objectAt_putObject by eassumption. rewrite Hobj.
      rewrite list_lookup_insert_ne by congruence. reflexivity.
    + erewrite objectAt_putObject_ne by eassumption. reflexivity.
  - destruct (decide (o = C)) as [->|Hc].
    + erewrite objectAt_putObject by eassumption. by rewrite Hobj.
    + erewrite objectAt_putObject_ne by eassumption. reflexivity.
Qed.

Lemma store_load addr v st st' :
  store addr v st = Ok st' →
  load addr st' = Ok v
  ∧ symbols (ctx st') = symbols (ctx st)
  ∧ globalSymbols (ctx st') = globalSymbols (ctx st).
Proof.
  destruct addr as [n|n|c i|o i]; simpl.
  - destruct (globals (ctx st) !! n) as [cell|] eqn:Hn; [|discriminate].
    intros [= <-]. simpl.
    rewrite list_lookup_insert_eq by (by eapply lookup_lt_Some). auto.
  - case_decide; [|discriminate]. intros [= <-]. simpl.
    rewrite list_lookup_insert_eq by assumption. auto.
  - destruct (objectAt c st) as [[| p a inv bound |]|] eqn:Hobj;
      try discriminate.
    case_decide; [|discriminate]. intros [= <-].
    erewrite objectAt_putObject by eassumption.
    rewrite list_lookup_insert_eq by assumption. auto.
  - destruct (objectAt o st) as [[| |cls ivars]|] eqn:Hobj;
      try discriminate.
    case_decide; [|discriminate]. intros [= <-].
    erewrite objectAt_putObject by eassumption.
    rewrite list_lookup_insert_eq by assumption. auto.
Qed.

(** After [setSymbol(name, val)] the name resolves to storage that holds
    [val]: the storage it resolved to before, or the cell of a new
    global. *)
Lemma setSymbol_lookup name val st st' :
  setSymbol name val st = Ok st' →
  ∃ addr,
    lookupSymbol (ctx st') name = Some addr
    ∧ load addr st' = Ok val
    ∧ (lookupSymbol (ctx st) name = Some addr ∨ ∃ n, addr = LGlobal n).
Proof.
  unfold setSymbol.
  destruct (lookupSymbol (ctx st) name) as [addr|] eqn:Hlook.
  - intros (Hload & Hsym & Hglob)%store_load.
    exists addr. split; [|auto].
    unfold lookupSymbol in *. by rewrite Hsym, Hglob.
  - destruct (Value.set _ _ _) as [[cell r]| |] eqn:Hset;
      [simpl|discriminate..].
    intros [= <-]. exists (LGlobal (length (globals (ctx st)))).
    split; [|split; [|eauto]].
    + unfold lookupSymbol in *. simpl.
      destruct (symbols (ctx st)) as [|top rest].
      * by rewrite lookup_insert_eq.
      * destruct (top !! name); [discriminate|].
        by rewrite lookup_insert_eq.
    + simpl. rewrite lookup_app_r, Nat.sub_diag by lia. simpl.
      by rewrite (set_object _ _ _ _ _ Hset).
Qed.

(** The copy loop, seen from a name whose storage holds [C] and is not a
    slot of [C] itself: every slot the loop fills for that name holds
    [C], and the slots before [i] are left alone. *)
Lemma copyBound_captures C name addr vars :
  ∀ i st st',
    copyBound C vars i st = Ok st' →
    lookupSymbol (ctx st) name = Some addr →
    (∀ j, addr ≠ LBound C j) →
    load addr st = Ok C →
    ctx st' = ctx st
    ∧ load addr st' = Ok C
    ∧ (∀ j, j < i → load (LBound C j) st' = load (LBound C j) st)
    ∧ (∀ j, vars !! j = Some name → load (LBound C (i + j)) st' = Ok C).
Proof.
  induction vars as [|var vars IH]; intros i st st' Hcopy Hlook Hfresh Hload.
  - injection Hcopy as <-. repeat split; auto. intros j Hj. discriminate.
  - change (copyBound C (var :: vars) i st)
      with (a ← orFault UnboundName (lookupSymbol (ctx st) var);
            v ← load a st;
            st1 ← store (LBound C i) v st;
            copyBound C vars (S i) st1) in Hcopy.
    destruct (lookupSymbol (ctx st) var) as [a|] eqn:Hvar;
      [|discriminate].
    cbn [orFault mbind Result_bind] in Hcopy.
    destruct (load a st) as [v| |] eqn:Hv; [|discriminate..].
    cbn [mbind Result_bind] in Hcopy.
    destruct (store (LBound C i) v st) as [st1| |] eqn:Hstore;
      [|discriminate..].
    cbn [mbind Result_bind] in Hcopy.
    pose proof (store_LBound_ctx _ _ _ _ _ Hstore) as Hctx.
    destruct (IH (S i) st1 st' Hcopy) as (Hctx' & Hload' & Hframe & Hslots).
    { by rewrite Hctx. }
    { assumption. }
    { erewrite load_store_LBound_ne; eauto. }
    split; [congruence|]. split; [assumption|]. split.
    + intros j Hj. rewrite Hframe by lia.
      eapply load_store_LBound_ne; [eassumption|]. intros [= ->]. lia.
    + intros [|j] Hj.
      * injection Hj as ->. rewrite Nat.add_0_r.
        rewrite Hframe by lia.
        assert (a = addr) as -> by congruence.
        assert (v = C) as -> by congruence.
        eapply load_store_LBound, Hstore.
      * replace (i + S j) with (S i + j) by lia. by apply Hslots.
Qed.

(** C2, as the code has it.  ClosureDecl::evaluateExpr binds the name of
    the closure to the new closure object before it copies the bound
    variables; so when that name is one of the bound variables, the slot
    filled for it holds the new closure itself. *)
Theorem closure_captures_its_own_binding d st C st' i :
  (∀ j, lookupSymbol (ctx st) (declName d)
          ≠ Some (LBound (addressOf (length (heap st))) j)) →
  evaluateClosureDecl d st = Ok (C, st') →
  elements (boundVars (declState (check d (nodes st)) (declNode d))) !! i
    = Some (declName d) →
  C = addressOf (length (heap st))
  ∧ (∃ addr, lookupSymbol (ctx st') (declName d) = Some addr
             ∧ load addr st' = Ok C)
  ∧ load (LBound C i) st' = Ok C.
Proof.
  intros Hfresh Hev Hi. unfold evaluateClosureDecl in Hev.
  change (thisDecl (setNodes (check d (nodes st)) st) d)
    with (declState (check d (nodes st)) (declNode d)) in Hev.
  set (this := declState (check d (nodes st)) (declNode d)) in *.
  destruct (match compiledClosure this with
            | Some code => Ok code
            | None => _
            end) as [invoke| |]; [simpl in Hev|discriminate..].
  destruct (setSymbol _ _ _) as [st2| |] eqn:Hset;
    [simpl in Hev|discriminate..].
  destruct (copyBound _ _ _ _) as [st3| |] eqn:Hcopy;
    [simpl in Hev|discriminate..].
  injection Hev as <- <-.
  apply setSymbol_lookup in Hset as (addr & Hlook & Hload & Hwhere).
  assert (∀ j, addr ≠ LBound (addressOf (length (heap st))) j) as Hne.
  { intros j ->. destruct Hwhere as [H|[n [=]]]. by apply (Hfresh j). }
  destruct (copyBound_captures _ _ _ _ _ _ _ Hcopy Hlook Hne Hload)
    as (Hctx & Hload' & _ & Hslots).
  split; [reflexivity|]. split.
  - exists addr. by rewrite Hctx.
  - apply (Hslots i Hi).
Qed.

(** ** Capture analysis *)

Lemma eraseAll_difference (names : list string) (s : gset string) :
  eraseAll names s = s ∖ list_to_set names.
Proof.
  unfold eraseAll. revert s.
  induction names as [|x names IH]; intros s; simpl.
  - rewrite difference_empty_L. reflexivity.
  - rewrite IH. apply leibniz_equiv. intros y.
    rewrite !elem_of_difference, elem_of_union, elem_of_singleton.
    tauto.
Qed.

Lemma declState_insert ns n s : declState (<[n := s]> ns) n = s.
Proof. unfold declState. by rewrite lookup_insert_eq. Qed.

Lemma check_eq node name parameters body ns :
  check (mkClosureDecl node name parameters body) ns =
    let this := declState ns node in
    if checked this then ns else
    let acc := collectVarUsesStatements body
                 (mkUses (decls this) (boundVars this) ns) in
    let this' := declState (u_nodes acc) node in
    <[node := mkDeclState (executionCount this') (compiledClosure this') true
                (u_uses acc ∖ list_to_set parameters ∖ u_decls acc)
                (u_decls acc)]> (u_nodes acc).
Proof.
  simpl. destruct (checked (declState ns node)); [reflexivity|].
  rewrite !eraseAll_difference.
  assert (∀ ss acc,
    (fix stmts (ss : list Statement) (acc : Uses) {struct ss} : Uses :=
       match ss with
       | [] => acc
       | s :: ss' => stmts ss' (collectVarUsesStatement s acc)
       end) ss acc = collectVarUsesStatements ss acc) as ->.
  { induction ss as [|s ss IH]; intros acc; [reflexivity|]. apply IH. }
  replace (list_to_set (elements (u_decls
             (collectVarUsesStatements body
                (mkUses (decls (declState ns node))
                        (boundVars (declState ns node)) ns)))))
    with (u_decls (collectVarUsesStatements body
                (mkUses (decls (declState ns node))
                        (boundVars (declState ns node)) ns)))
    by (symmetry; apply leibniz_equiv, list_to_set_elements).
  reflexivity.
Qed.

(** The analysis is memoised by the [checked] flag. *)
Lemma check_checked d ns : checked (declState (check d ns) (declNode d)) = true.
Proof.
  destruct d as [node name parameters body]. rewrite check_eq. simpl.
  destruct (checked (declState ns node)) eqn:E; [assumption|].
  by rewrite declState_insert.
Qed.

Lemma check_once d ns : check d (check d ns) = check d ns.
Proof.
  pose proof (check_checked d ns) as H.
  destruct d as [node name parameters body].
  rewrite (check_eq _ _ _ _ (check _ ns)). simpl in *. by rewrite H.
Qed.

(** What the analysis leaves in [boundVars] is apart from the declared
    names and from the parameters. *)
Lemma check_boundVars_disjoint d ns x :
  checked (declState ns (declNode d)) = false →
  x ∈ boundVars (declState (check d ns) (declNode d)) →
  (x ∉ decls (declState (check d ns) (declNode d)))
  ∧ (x ∉ declParameters d).
Proof.
  destruct d as [node name parameters body]. rewrite check_eq. simpl.
  intros ->. rewrite !declState_insert. simpl.
  intros [[_ Hp]%elem_of_difference Hd]%elem_of_difference.
  split; [assumption|]. intros Hin. apply Hp, elem_of_list_to_set, Hin.
Qed.

(** C5 at its failing input.  In [func f() { var x = y; return x; }] the
    name [y] is referenced in the body and is neither declared there nor
    a parameter, yet the analysis leaves [boundVars] empty:
    Decl::collectVarUses records the declared name and never visits the
    initialiser. *)
Theorem check_misses_the_initialiser_of_a_declaration :
  "y"%string ∈ freeVariables initialised
  ∧ boundVars (declState (check initialised ∅) (declNode initialised)) = ∅
  ∧ decls (declState (check initialised ∅) (declNode initialised))
      = {["x"%string]}
  ∧ checked (declState (check initialised ∅) (declNode initialised)) = true.
Proof. repeat split; vm_compute; reflexivity. Qed.

(** The consequence at run time: called inside [outer], the closure
    [inner] with the body [var x = y; return x;] finds no [y], whereas
    with the body [return y;] it has captured the argument. *)
Lemma initialiser_is_unbound_at_run_time :
  run 30 (nestedProgram [Decl "x"%string (Some (VarRef 8 "y"%string));
                         Return (VarRef 9 "x"%string)]) initialState
    = Err UnboundName
  ∧ ∃ st, run 30 (nestedProgram [Return (VarRef 8 "y"%string)]) initialState
            = Ok st
          ∧ valueOf "r"%string st = createSmallInteger 5.
Proof.
  split; [vm_compute; reflexivity|].
  eexists. split; vm_compute; reflexivity.
Qed.

(** ** The hand-off, closure construction and the cache at concrete inputs *)

(** C1 at its failing input.  [f] is called ten times.  The tenth entry
    of interpretClosure reaches the threshold and compiles; the compiled
    code runs (once: [compiled] is 1), and then the body is interpreted
    all the same: the call returns the body's count of its own
    interpretations, 10, and not the 100 that the compiled code
    returned. *)
Theorem interpretClosure_interprets_after_the_compiled_call :
  ∃ st, run 30 (tierProgram 10) initialState = Ok st
    ∧ executionCount (thisDecl st counting) = compileThreshold
    ∧ compiledClosure (thisDecl st counting) = Some (Native 0)
    ∧ valueOf "compiled"%string st = createSmallInteger 1
    ∧ valueOf "r"%string st = createSmallInteger 10
    ∧ valueOf "r"%string st ≠ createSmallInteger 100.
Proof.
  eexists. split; [vm_compute; reflexivity|].
  repeat split; try (vm_compute; reflexivity).
  vm_compute. discriminate.
Qed.

(** Before the threshold the body is interpreted and nothing is
    compiled; after it the closure object calls the compiled code
    directly. *)
Lemma tierProgram_before_and_after :
  (∃ st, run 30 (tierProgram 9) initialState = Ok st
     ∧ executionCount (thisDecl st counting) = 9
     ∧ compiledClosure (thisDecl st counting) = None
     ∧ valueOf "compiled"%string st = nullptr
     ∧ valueOf "r"%string st = createSmallInteger 9)
  ∧ (∃ st, run 30 (tierProgram 12) initialState = Ok st
     ∧ executionCount (thisDecl st counting) = 10
     ∧ valueOf "compiled"%string st = createSmallInteger 3
     ∧ valueOf "r"%string st = createSmallInteger 100).
Proof.
  split; eexists; (split; [vm_compute; reflexivity|]);
    repeat split; vm_compute; reflexivity.
Qed.

(** C2 as stated fails: [h] holds 5 when [func h(k) { return h(k); }] is
    evaluated, and the slot of the closure for [h] holds the closure
    itself afterwards, not 5. *)
Lemma closure_does_not_capture_the_previous_binding :
  ¬ capturesPreviousBinding recursive boundToFive.
Proof.
  intros H.
  destruct (evaluateClosureDecl recursive boundToFive)
    as [[C st']| |] eqn:Hev; [|vm_compute in Hev; discriminate..].
  specialize (H C st' 0 (LGlobal 0) (createSmallInteger 5) Hev).
  vm_compute in Hev. injection Hev as <- <-.
  vm_compute in H. specialize (H eq_refl eq_refl eq_refl). discriminate.
Qed.


(** ** Instances *)

Lemma value_cell_root_discipline_witness :
  rooted Value.empty (mkRoots ∅ 0)
  ∧ ∃ v' r',
      Value.setAll Value.empty [8; 16; 9; 24]%Z (mkRoots ∅ 0) = Ok (v', r')
      ∧ Value.object v' = 24%Z
      ∧ rooted v' r'
      ∧ is_Some (Value.holder v').
Proof.
  split; [reflexivity|].
  destruct (value_cell_root_discipline Value.empty (mkRoots ∅ 0)
              [8; 16; 9; 24]%Z)
    as (v' & r' & Hrun & Hobj & Hroot & Hiff & _); [reflexivity|].
  exists v', r'. repeat split; try assumption.
  apply Hiff. rewrite Hobj. reflexivity.
Defined.

Lemma lookupSymbol_skips_deeper_frames_witness :
  symbols shadowedContext
    = [{["z"%string := LStack 2]};
       {["x"%string := LStack 0; "y"%string := LStack 1]}]
  ∧ lookupSymbol shadowedContext "z"%string = Some (LStack 2)
  ∧ lookupSymbol shadowedContext "x"%string = Some (LGlobal 0)
  ∧ lookupSymbol shadowedContext "y"%string = None.
Proof.
  split; [reflexivity|].
  pose proof (lookupSymbol_skips_deeper_frames shadowedContext
                {["z"%string := LStack 2]}
                [{["x"%string := LStack 0; "y"%string := LStack 1]}]
                "z"%string eq_refl) as (Hz & _).
  pose proof (lookupSymbol_skips_deeper_frames shadowedContext
                {["z"%string := LStack 2]}
                [{["x"%string := LStack 0; "y"%string := LStack 1]}]
                "x"%string eq_refl) as (_ & _ & Hx & _).
  pose proof (lookupSymbol_skips_deeper_frames shadowedContext
                {["z"%string := LStack 2]}
                [{["x"%string := LStack 0; "y"%string := LStack 1]}]
                "y"%string eq_refl) as (_ & _ & Hy & _).
  split; [|split].
  - apply Hz. vm_compute; reflexivity.
  - destruct (Hx {["x"%string := LStack 0; "y"%string := LStack 1]}
                 (LStack 0)) as (Hglobal & _);
      [apply list_elem_of_here | vm_compute; reflexivity..|].
    rewrite Hglobal. vm_compute; reflexivity.
  - destruct (Hy {["x"%string := LStack 0; "y"%string := LStack 1]}
                 (LStack 1)) as (_ & Hnull & _);
      [apply list_elem_of_here | vm_compute; reflexivity..|].
    apply Hnull. vm_compute; reflexivity.
Defined.

Lemma truthiness_of_if_and_while_witness :
  smallIntRange 7 ∧ truthy (createSmallInteger 7) = true
  ∧ needsGC 8%Z = true ∧ truthy 8%Z = true
  ∧ isValue (createSmallInteger 0)
  ∧ (truthy (createSmallInteger 0) = false ↔
       createSmallInteger 0 = nullptr
       ∨ (isInteger (createSmallInteger 0) = true
          ∧ getInteger (createSmallInteger 0) = 0%Z)).
Proof.
  pose proof (truthiness_of_if_and_while exampleCompileClosure
                exampleCompileMethod exampleNativeClosure exampleNativeMethod)
    as (_ & _ & _ & Hvalue & _ & _ & Hptr & Hint).
  assert (smallIntRange 7) as H7 by (unfold smallIntRange; lia).
  assert (isValue (createSmallInteger 0)) as H0 by (right; left; reflexivity).
  split; [assumption|]. split; [apply Hint; [assumption|lia]|].
  split; [reflexivity|]. split; [apply Hptr; reflexivity|].
  split; [assumption|]. apply Hvalue, H0.
Defined.

Lemma return_stops_the_block_witness :
  ∃ st,
    run 6 ([Decl "a"%string None] ++ Return (Number 1 5)
             :: [Assignment "a"%string (Number 2 7)]) initialState = Ok st
    ∧ isReturning (ctx st) = true
    ∧ retVal (ctx st) = createSmallInteger 5
    ∧ valueOf "a"%string st = nullptr.
Proof.
  destruct (run 6 [Decl "a"%string None] initialState) as [st1| |] eqn:Hpre;
    [|vm_compute in Hpre; discriminate..].
  destruct (exec 4 (Return (Number 1 5)) st1) as [st2| |] eqn:Hs;
    [|vm_compute in Hpre; injection Hpre as <-;
      vm_compute in Hs; discriminate..].
  assert (isReturning (ctx st1) = false) as Hnot
    by (vm_compute in Hpre; injection Hpre as <-; reflexivity).
  assert (isReturning (ctx st2) = true) as Hret
    by (vm_compute in Hpre; injection Hpre as <-;
        vm_compute in Hs; injection Hs as <-; reflexivity).
  destruct (return_stops_the_block exampleCompileClosure exampleCompileMethod
              exampleNativeClosure exampleNativeMethod
              [Decl "a"%string None] (Return (Number 1 5))
              [Assignment "a"%string (Number 2 7)] 3 initialState st1 st2
              Hpre Hnot Hs Hret) as (Hblock & _ & _).
  exists st2. split; [exact Hblock|]. split; [assumption|].
  vm_compute in Hpre; injection Hpre as <-.
  vm_compute in Hs; injection Hs as <-.
  split; vm_compute; reflexivity.
Defined.

Lemma returningLoop_condition fuel st :
  loopInvariant st →
  eval fuel (Number 1 1) st = OutOfFuel
  ∨ ∃ v st', eval fuel (Number 1 1) st = Ok (v, st')
             ∧ truthy v = true ∧ loopInvariant st'.
Proof.
  intros [Hret Hcache]. destruct fuel as [|fuel]; [by left|]. right.
  exists (createSmallInteger 1), st. unfold eval.
  rewrite evaluate_eq. simpl nodeOf. rewrite Hcache.
  repeat split; assumption.
Qed.

Lemma while_ignores_isReturning_witness :
  loopInvariant afterReturn
  ∧ exec 1000 returningLoop afterReturn = OutOfFuel.
Proof.
  assert (loopInvariant afterReturn) as Hinv
    by (split; vm_compute; reflexivity).
  split; [assumption|].
  apply (proj1 (proj2
    (while_ignores_isReturning exampleCompileClosure exampleCompileMethod
       exampleNativeClosure exampleNativeMethod
       (Number 1 1) [Return (Number 2 2)] loopInvariant
       (λ st H, proj1 H) returningLoop_condition)) 1000 afterReturn Hinv).
Defined.

Lemma closure_captures_its_own_binding_witness :
  valueOf "h"%string boundToFive = createSmallInteger 5
  ∧ ∃ st', evaluateClosureDecl recursive boundToFive = Ok (8%Z, st')
           ∧ load (LBound 8%Z 0) st' = Ok 8%Z.
Proof.
  split; [vm_compute; reflexivity|].
  destruct (evaluateClosureDecl recursive boundToFive)
    as [[C st']| |] eqn:Hev; [|vm_compute in Hev; discriminate..].
  destruct (closure_captures_its_own_binding recursive boundToFive C st' 0)
    as (HC & _ & Hload).
  - intros j. vm_compute. discriminate.
  - exact Hev.
  - vm_compute; reflexivity.
  - vm_compute in HC. subst C. exists st'. split; [reflexivity|exact Hload].
Defined.

(** The loop [while (1) { return 2; }] returns for no amount of fuel,
    from the first iteration on. *)
Lemma returningLoop_spins fuel st :
  loopInvariant st → exec fuel returningLoop st = OutOfFuel.
Proof.
  apply (proj1 (proj2
    (while_ignores_isReturning exampleCompileClosure exampleCompileMethod
       exampleNativeClosure exampleNativeMethod
       (Number 1 1) [Return (Number 2 2)] loopInvariant
       (λ st H, proj1 H) returningLoop_condition))).
Qed.

Lemma returningLoop_never_returns fuel :
  run fuel [returningLoop] initialState = OutOfFuel.
Proof.
  destruct fuel as [|[|[|[|[|[|fuel]]]]]].
  1-6: vm_compute; reflexivity.
  unfold run, returningLoop.
  rewrite interpretStatements_cons.
  change (isReturning (ctx initialState)) with false. cbv iota.
  rewrite interpret_While.
  destruct (evaluate _ _ _ _ (S (S (S (S fuel)))) (Number 1 1) initialState)
    as [[v st1]| |] eqn:Hc; vm_compute in Hc; [|discriminate..].
  injection Hc as <- <-. cbn [mbind Result_bind].
  change (truthy 9%Z) with true. cbv iota.
  rewrite interpretStatements_cons. cbn [isReturning ctx]. cbv iota.
  rewrite interpret_Return.
  match goal with
  | |- context [evaluate ?cc ?cm ?nc ?nm (S (S fuel)) (Number 2 2) ?s] =>
      destruct (evaluate cc cm nc nm (S (S fuel)) (Number 2 2) s)
        as [[v st2]| |] eqn:Hr; vm_compute in Hr; [|discriminate..]
  end.
  injection Hr as <- <-. cbn [mbind Result_bind].
  rewrite interpretStatements_nil. cbn [mbind Result_bind].
  match goal with
  | |- context [interpret ?cc ?cm ?nc ?nm ?f (WhileLoop ?c ?b) ?s] =>
      change (interpret cc cm nc nm f (WhileLoop c b) s)
        with (exec f returningLoop s);
      rewrite (returningLoop_spins f s) by (split; vm_compute; reflexivity)
  end.
  reflexivity.
Qed.

(** ** Faults *)

Lemma fault_Err {A} (r : Result A) (f : Fault) : fault r = Some f → r = Err f.
Proof. destruct r; simpl; congruence. Qed.

Section Faults.

Variable compileClosure : ClosureDecl → gmap string Loc → Code.
Variable compileMethod : ClosureDecl → ClassRef → gmap string Loc → Code.
Variable nativeClosure : nat → Obj → list Obj → State → Result (Obj * State).
Variable nativeMethod :
  nat → Obj → Selector → list Obj → State → Result (Obj * State).

Local Abbreviation evaluate :=
  (evaluate compileClosure compileMethod nativeClosure nativeMethod).
Local Abbreviation evaluateExpr :=
  (evaluateExpr compileClosure compileMethod nativeClosure nativeMethod).
Local Abbreviation evaluateArguments :=
  (evaluateArguments compileClosure compileMethod nativeClosure nativeMethod).
Local Abbreviation interpret :=
  (interpret compileClosure compileMethod nativeClosure nativeMethod).
Local Abbreviation interpretStatements :=
  (interpretStatements compileClosure compileMethod nativeClosure
                       nativeMethod).
Local Abbreviation interpretClosure :=
  (interpretClosure compileClosure compileMethod nativeClosure nativeMethod).
Local Abbreviation interpretMethod :=
  (interpretMethod compileClosure compileMethod nativeClosure nativeMethod).
Local Abbreviation callCompiledClosure :=
  (callCompiledClosure compileClosure compileMethod nativeClosure
                       nativeMethod).
Local Abbreviation callCompiledMethod :=
  (callCompiledMethod compileClosure compileMethod nativeClosure
                      nativeMethod).
Local Abbreviation calls :=
  (calls compileClosure compileMethod nativeClosure nativeMethod).
Local Abbreviation outcome :=
  (outcome compileClosure compileMethod nativeClosure nativeMethod).

Lemma evaluateExpr_eq fuel e st :
  evaluateExpr (S fuel) e st =
    match e with
    | Number _ value => Ok (Z.lor (wrap64 (Z.shiftl value 3)) 1, st)
    | StringLiteral _ value =>
        Ok (gcAlloc (StringObject
                       (createSmallInteger (Z.of_nat (String.length value)))
                       value) st)
    | BinOp _ op lhs rhs =>
        '(LHS, st) ← evaluate fuel lhs st;
        '(RHS, st) ← evaluate fuel rhs st;
        if isComparison op || (isInteger LHS && isInteger RHS) then
          r ← orFault DivideByZero
                (evaluateWithIntegers op (Z.shiftr LHS 3) (Z.shiftr RHS 3));
          Ok (createSmallInteger r, st)
        else
          name ← orFault InvalidAccess (methodName op);
          let '(sel, st) := lookupSelector name st in
          mth ← compiledMethodForSelector LHS sel st;
          callCompiledMethod fuel mth LHS sel [RHS] st
    | VarRef _ name =>
        addr ← orFault UnboundName (lookupSymbol (ctx st) name);
        v ← load addr st;
        Ok (v, st)
    | Call _ callee method arguments =>
        '(obj, st) ← evaluate fuel callee st;
        _ ← assert (negb (obj =? 0)%Z);
        '(argv, st) ← evaluateArguments fuel arguments 0 st;
        let st := setCurrentContext st in
        match method with
        | None =>
            match objectAt obj st with
            | Some (ClosureObject _ _ invoke _) =>
                callCompiledClosure fuel invoke obj argv st
            | Some _ => Err AssertFailed
            | None => Err InvalidAccess
            end
        | Some name =>
            let '(sel, st) := lookupSelector name st in
            _ ← assert (bool_decide (sel ≠ 0%nat));
            mth ← compiledMethodForSelector obj sel st;
            callCompiledMethod fuel mth obj sel argv st
        end
    | NewExpr _ className =>
        cls ← orFault InvalidAccess (lookupClass className st);
        newObject cls st
    | Closure d => evaluateClosureDecl d st
    end.
Proof. reflexivity. Qed.

Lemma evaluateArguments_eq fuel es i st :
  evaluateArguments (S fuel) es i st =
    match es with
    | [] => Ok ([], st)
    | arg :: es' =>
        _ ← assert (bool_decide (i < 10)%nat);
        '(v, st) ← evaluate fuel arg st;
        '(vs, st) ← evaluateArguments fuel es' (S i) st;
        Ok (v :: vs, st)
    end.
Proof. reflexivity. Qed.

Lemma callCompiledClosure_eq fuel code closure argv st :
  callCompiledClosure (S fuel) code closure argv st =
    match code with
    | closureTrampoline n =>
        if decide (length argv < n)%nat then Err InvalidAccess else
        match objectAt closure st with
        | Some (ClosureObject _ AST _ _) =>
            _ ← derefCurrentContext st;
            interpretClosure fuel AST closure (length (stack st))
              (setStack (stack st ++ take n argv) st)
        | _ => Err InvalidAccess
        end
    | Native k => nativeClosure k closure argv st
    | methodTrampoline _ => Err InvalidAccess
    end.
Proof. reflexivity. Qed.

Lemma callCompiledMethod_eq fuel code self sel argv st :
  callCompiledMethod (S fuel) code self sel argv st =
    match code with
    | methodTrampoline n =>
        if decide (length argv < n)%nat then Err InvalidAccess else
        cls ← classOf self st;
        mth ← orFault InvalidAccess (methodForSelector cls sel st);
        m ← orFault InvalidAccess (methodAt mth st);
        AST ← orFault InvalidAccess (methodAST m);
        _ ← derefCurrentContext st;
        interpretMethod fuel AST mth self sel (length (stack st))
          (setStack (stack st ++ take n argv) st)
    | Native k => nativeMethod k self sel argv st
    | closureTrampoline _ => Err InvalidAccess
    end.
Proof. reflexivity. Qed.

Lemma interpret_eq fuel s st :
  interpret (S fuel) s st =
    match s with
    | ExprStatement e => '(_, st) ← evaluate fuel e st; Ok st
    | Decl name init =>
        '(v, st) ← match init with
                   | Some e => evaluate fuel e st
                   | None => Ok (nullptr, st)
                   end;
        setSymbol name v st
    | Assignment target expr =>
        '(v, st) ← evaluate fuel expr st;
        setSymbol target v st
    | Return expr =>
        '(v, st) ← evaluate fuel expr st;
        Ok (setCtx (setIsReturning true (setRetVal v (ctx st))) st)
    | IfStatement condition body =>
        '(v, st) ← evaluate fuel condition st;
        if truthy v then interpretStatements fuel body st else Ok st
    | WhileLoop condition body =>
        '(v, st) ← evaluate fuel condition st;
        if truthy v then
          st ← interpretStatements fuel body st;
          interpret fuel (WhileLoop condition body) st
        else Ok st
    | ClassDecl name superclassName ivars methods =>
        let clsName := default superclassName name in
        let sup := match name with
                   | Some _ => lookupClass superclassName st
                   | None => None
                   end in
        '(ms, st) ← buildMethods methods st;
        Ok (registerClass clsName (mkClass sup clsName ms ivars) st)
    end.
Proof. destruct s; reflexivity. Qed.

Lemma assert_not_null (o : Obj) :
  o ≠ nullptr → assert (negb (o =? 0)%Z) = Ok ().
Proof.
  intros H. unfold assert.
  by replace (o =? 0)%Z with false by (symmetry; by apply Z.eqb_neq).
Qed.

Lemma cache_empty (v : Value.t) :
  Value.object v = nullptr → negb (Value.object v =? 0)%Z = false.
Proof. by intros ->. Qed.

(** A trampoline reads [*currentContext]: before the first call
    expression has assigned it, entering the interpreter through a
    trampoline is an invalid access. *)
Lemma methodTrampoline_needs_currentContext
    fuel n self sel argv st cls mth m AST :
  ¬ (length argv < n)%nat →
  classOf self st = Ok cls →
  methodForSelector cls sel st = Some mth →
  methodAt mth st = Some m →
  methodAST m = Some AST →
  currentContext st = false →
  callCompiledMethod (S fuel) (methodTrampoline n) self sel argv st
    = Err InvalidAccess.
Proof.
  intros Hn Hcls Hmth Hm HAST Hnull. rewrite callCompiledMethod_eq.
  destruct (decide _); [contradiction|].
  rewrite Hcls. cbn [mbind Result_bind]. rewrite Hmth.
  cbn [mbind Result_bind orFault]. rewrite Hm.
  cbn [mbind Result_bind orFault]. rewrite HAST.
  cbn [mbind Result_bind orFault]. unfold derefCurrentContext.
  by rewrite Hnull.
Qed.

Lemma closureTrampoline_needs_currentContext
    fuel n closure argv st p AST invoke bound :
  ¬ (length argv < n)%nat →
  objectAt closure st = Some (ClosureObject p AST invoke bound) →
  currentContext st = false →
  callCompiledClosure (S fuel) (closureTrampoline n) closure argv st
    = Err InvalidAccess.
Proof.
  intros Hn Hobj Hnull. rewrite callCompiledClosure_eq.
  destruct (decide _); [contradiction|].
  rewrite Hobj. unfold derefCurrentContext. by rewrite Hnull.
Qed.

Local Ltac known :=
  repeat match goal with
    | H : _ = Ok _ |- _ => rewrite H
    | H : _ = Some _ |- _ => rewrite H
    | H : _ = None |- _ => rewrite H
    | H : _ = (_, _) |- _ => rewrite H
    | H : _ = true |- _ => rewrite H
    | H : _ = false |- _ => rewrite H
    | H : Value.object _ = nullptr |- _ => rewrite (cache_empty _ H)
    | H : ?o ≠ nullptr |- _ => rewrite (assert_not_null o H)
    | H : (?i < ?n)%nat |- _ => rewrite (bool_decide_eq_true_2 (i < n)%nat H)
    | H : ?s ≠ 0%nat |- _ => rewrite (bool_decide_eq_true_2 (s ≠ 0%nat) H)
    | H : ¬ ?P |- context [decide ?P] =>
        destruct (decide P); [contradiction|]
    | _ => progress cbn [mbind Result_bind orFault assert]
    end.

(** The fault of a callee is the fault of its caller: no function of
    the interpreter goes on after a call that faulted. *)
Lemma calls_fault a b f : calls a b → outcome b = Some f → outcome a = Some f.
Proof.
  intros Hcalls Hb. destruct Hcalls; simpl in Hb |- *;
    apply fault_Err in Hb; unfold derefCurrentContext.
  all: try (rewrite evaluate_eq).
  all: try (rewrite evaluateExpr_eq).
  all: try (rewrite evaluateArguments_eq).
  all: try (rewrite callCompiledClosure_eq).
  all: try (rewrite callCompiledMethod_eq).
  all: try (rewrite interpretClosure_eq).
  all: try (rewrite interpretMethod_eq).
  all: try (rewrite interpret_eq).
  all: try (rewrite interpretStatements_cons).
  all: cbv zeta; unfold derefCurrentContext.
  all: known; rewrite Hb; reflexivity.
Qed.


End Faults.

(** ** The faults at concrete inputs *)


(** ** The cells of constant expressions *)

Lemma kept_refl st : kept st st.
Proof. split; auto. Qed.

Lemma kept_trans st1 st2 st3 : kept st1 st2 → kept st2 st3 → kept st1 st3.
Proof.
  intros [Hc Hs Hk] [Hc' Hs' Hk']. split.
  - intros n Hn. rewrite Hc'; [by apply Hc|]. by rewrite Hc.
  - auto.
  - auto.
Qed.

Lemma calm_refl st : calm st st.
Proof. split; [reflexivity|apply kept_refl]. Qed.

Lemma calm_trans st1 st2 st3 : calm st1 st2 → calm st2 st3 → calm st1 st3.
Proof.
  intros [Hc Hk] [Hc' Hk']. split; [congruence|by eapply kept_trans].
Qed.

Lemma cacheOf_caches st st' n : caches st' = caches st → cacheOf st' n = cacheOf st n.
Proof. unfold cacheOf. by intros ->. Qed.

(** A change of the state that touches neither the heap, the cells nor
    the classes. *)
Lemma still_calm st st' :
  heap st' = heap st → caches st' = caches st → classes st' = classes st →
  calm st st'.
Proof.
  intros Hh Hc Hk. split; [assumption|]. split.
  - intros n _. by apply cacheOf_caches.
  - intros o len s Ho. unfold objectAt in *. by rewrite Hh.
  - intros cls c Hcls _. by rewrite Hk.
Qed.

Lemma constantValue_kept v st st' :
  kept st st' → constantValue v st → constantValue v st'.
Proof.
  intros [_ Hs _] [Hi|(len & s & Ho)]; [by left|].
  right. exists len, s. by apply Hs.
Qed.

Lemma calm_sound st st' : calm st st' → sound st st'.
Proof.
  intros [Hc Hk]. split; [assumption|]. intros [Hplain Hgood]. split.
  - intros cls Hcls. destruct (Hplain cls Hcls) as (c & Hc' & Hm & Hsup).
    exists c. split; [|auto]. by apply (kept_classes _ _ Hk).
  - intros n. rewrite (cacheOf_caches _ _ n Hc).
    destruct (Hgood n) as [?|Hv]; [by left|right].
    by eapply constantValue_kept.
Qed.

Lemma sound_refl st : sound st st.
Proof. apply calm_sound, calm_refl. Qed.

Lemma sound_trans st1 st2 st3 : sound st1 st2 → sound st2 st3 → sound st1 st3.
Proof.
  intros [Hk Hw] [Hk' Hw']. split; [by eapply kept_trans|auto].
Qed.

Lemma gcAlloc_calm x st : calm st (gcAlloc x st).2.
Proof.
  split; [reflexivity|]. split; simpl.
  - intros n _. reflexivity.
  - intros o len s Ho. unfold objectAt in *. simpl.
    destruct (_ && _); [|discriminate]. by apply lookup_app_l_Some.
  - auto.
Qed.

Lemma putObject_calm o x y st :
  objectAt o st = Some x →
  (∀ len s, x ≠ StringObject len s) →
  calm st (putObject o y st).
Proof.
  intros Hx Hns. split; [reflexivity|]. split; simpl.
  - intros n _. reflexivity.
  - intros o' len s Ho'. destruct (decide (o' = o)) as [->|Hne].
    + rewrite Hx in Ho'. injection Ho' as ->. by destruct (Hns len s).
    + by erewrite objectAt_putObject_ne.
  - auto.
Qed.

Lemma store_calm addr v st st' : store addr v st = Ok st' → calm st st'.
Proof.
  destruct addr as [n|n|c i|o i]; simpl.
  - destruct (globals (ctx st) !! n) as [cell|]; [|discriminate].
    intros [= <-]. by apply still_calm.
  - case_decide; [|discriminate]. intros [= <-]. by apply still_calm.
  - destruct (objectAt c st) as [[| p a inv bound |]|] eqn:Hobj;
      try discriminate.
    case_decide; [|discriminate]. intros [= <-].
    eapply putObject_calm; [eassumption|discriminate].
  - destruct (objectAt o st) as [[| |cls ivars]|] eqn:Hobj;
      try discriminate.
    case_decide; [|discriminate]. intros [= <-].
    eapply putObject_calm; [eassumption|discriminate].
Qed.

Lemma setSymbol_calm name val st st' :
  setSymbol name val st = Ok st' → calm st st'.
Proof.
  unfold setSymbol.
  destruct (lookupSymbol (ctx st) name) as [addr|] eqn:Hlook.
  - apply store_calm.
  - destruct (Value.set _ _ _) as [[cell r]| |]; [simpl|discriminate..].
    intros [= <-]. by apply still_calm.
Qed.

Lemma setSymbolAddr_calm x l st st' :
  setSymbolAddr x l st = Ok st' → calm st st'.
Proof.
  unfold setSymbolAddr. destruct (symbols (ctx st)); [discriminate|].
  intros [= <-]. by apply still_calm.
Qed.

Lemma bindAll_calm names slot :
  ∀ i st st', bindAll names slot i st = Ok st' → calm st st'.
Proof.
  induction names as [|x names IH]; intros i st st'; simpl.
  - intros [= <-]. apply calm_refl.
  - destruct (setSymbolAddr x (slot i) st) as [st1| |] eqn:E;
      [simpl|discriminate..].
    intros H. eapply calm_trans; [by eapply setSymbolAddr_calm|by eapply IH].
Qed.

Lemma copyBound_calm C vars :
  ∀ i st st', copyBound C vars i st = Ok st' → calm st st'.
Proof.
  induction vars as [|var vars IH]; intros i st st' H.
  - injection H as <-. apply calm_refl.
  - change (copyBound C (var :: vars) i st)
      with (a ← orFault UnboundName (lookupSymbol (ctx st) var);
            v ← load a st;
            st1 ← store (LBound C i) v st;
            copyBound C vars (S i) st1) in H.
    destruct (orFault _ _) as [a| |]; [|discriminate..].
    cbn [mbind Result_bind] in H.
    destruct (load a st) as [v| |]; [|discriminate..].
    cbn [mbind Result_bind] in H.
    destruct (store (LBound C i) v st) as [st1| |] eqn:Hstore;
      [|discriminate..].
    cbn [mbind Result_bind] in H.
    eapply calm_trans; [by eapply store_calm|by eapply IH].
Qed.

Lemma evaluateClosureDecl_calm d st C st' :
  evaluateClosureDecl d st = Ok (C, st') → calm st st'.
Proof.
  unfold evaluateClosureDecl. intros H.
  destruct (match compiledClosure _ with Some code => Ok code | None => _ end)
    as [invoke| |]; [|discriminate..].
  cbn [mbind Result_bind] in H.
  match type of H with
  | context [gcAlloc ?x ?s] =>
      pose proof (gcAlloc_calm x s) as Halloc;
      destruct (gcAlloc x s) as [C0 st0]
  end.
  simpl in Halloc.
  destruct (setSymbol _ _ _) as [st1| |] eqn:Hset; [|discriminate..].
  cbn [mbind Result_bind] in H.
  destruct (copyBound _ _ _ _) as [st2| |] eqn:Hcopy; [|discriminate..].
  cbn [mbind Result_bind] in H. injection H as <- <-.
  apply (calm_trans _ (setNodes (check d (nodes st)) st));
    [by apply still_calm|].
  eapply calm_trans; [exact Halloc|].
  eapply calm_trans; [by eapply setSymbol_calm|by eapply copyBound_calm].
Qed.

Lemma lookupSelector_calm name st : calm st (lookupSelector name st).2.
Proof.
  unfold lookupSelector. destruct (indexOf _ _); simpl.
  - apply calm_refl.
  - by apply still_calm.
Qed.

Lemma buildMethods_calm ms :
  ∀ st r st', buildMethods ms st = Ok (r, st') → calm st st'.
Proof.
  induction ms as [|m ms IH]; intros st r st'; simpl.
  - intros [= <- <-]. apply calm_refl.
  - pose proof (lookupSelector_calm (declName m) st) as Hsel.
    destruct (lookupSelector (declName m) st) as [sel st0]. simpl in Hsel.
    destruct (assert _) as [[]| |]; [simpl|discriminate..].
    destruct (orFault _ _) as [f| |]; [simpl|discriminate..].
    destruct (buildMethods ms st0) as [[rest st1]| |] eqn:E;
      [simpl|discriminate..].
    intros [= <- <-]. eapply calm_trans; [exact Hsel|by eapply IH].
Qed.

Lemma registerClass_calm name cls st : calm st (registerClass name cls st).
Proof.
  split; [reflexivity|]. split; simpl.
  - intros n _. reflexivity.
  - auto.
  - intros i c Hc _. by apply lookup_app_l_Some.
Qed.

Lemma newObject_calm cls st r st' :
  newObject cls st = Ok (r, st') → calm st st'.
Proof.
  unfold newObject. destruct (orFault _ _) as [c| |]; [simpl|discriminate..].
  intros [= <- <-]. apply gcAlloc_calm.
Qed.

Lemma setInvoke_calm self code st st' :
  setInvoke self code st = Ok st' → calm st st'.
Proof.
  unfold setInvoke.
  destruct (objectAt self st) as [[| p a inv bound |]|] eqn:Hobj;
    try discriminate.
  intros [= <-]. eapply putObject_calm; [eassumption|discriminate].
Qed.

Lemma setFunction_calm mth code st st' :
  setFunction mth code st = Ok st' → calm st st'.
Proof.
  unfold setFunction.
  destruct (classes st !! mth.1) as [c|] eqn:Hc; [|discriminate].
  destruct (methodList c !! mth.2) as [m|] eqn:Hm; [|discriminate].
  intros [= <-]. split; [reflexivity|]. split; simpl.
  - intros n _. reflexivity.
  - auto.
  - intros i c' Hc' Hnil. destruct (decide (i = mth.1)) as [->|Hne].
    + assert (Some c' = Some c) as [= ->]
        by (transitivity (classes st !! mth.1); [symmetry; exact Hc'|exact Hc]).
      by rewrite Hnil in Hm.
    + by rewrite list_lookup_insert_ne.
Qed.

Lemma methodForSelectorFrom_plain depth cs cls sel c :
  cs !! cls = Some c → methodList c = [] → superclass c = None →
  methodForSelectorFrom depth cs cls sel = None.
Proof.
  intros Hc Hm Hs. destruct depth as [|depth]; [reflexivity|].
  simpl. rewrite Hc. simpl. rewrite Hm, Hs. reflexivity.
Qed.

(** A small integer or a string answers no message. *)
Lemma plain_no_method v sel st mth :
  plainBuiltins st → constantValue v st →
  compiledMethodForSelector v sel st ≠ Ok mth.
Proof.
  intros Hplain Hv. unfold compiledMethodForSelector, classOf.
  assert (∀ cls, cls = SmallIntClass ∨ cls = StringClass →
                 methodForSelector cls sel st = None) as Hnone.
  { intros cls Hcls. destruct (Hplain cls Hcls) as (c & Hc & Hm & Hs).
    by eapply methodForSelectorFrom_plain. }
  destruct Hv as [Hi|(len & s & Ho)].
  - rewrite Hi. cbn [mbind Result_bind]. rewrite Hnone by auto. discriminate.
  - destruct (isInteger v).
    + cbn [mbind Result_bind]. rewrite Hnone by auto. discriminate.
    + rewrite Ho. simpl. rewrite Hnone by auto. discriminate.
Qed.

Tactic Notation "dbind" hyp(H) ident(E) ident(x) :=
  match type of H with
  | mbind _ ?r = Ok _ =>
      destruct r as [x| |] eqn:E; [|discriminate H..];
      cbn [mbind Result_bind] in H
  end.

Tactic Notation "dbindp" hyp(H) ident(E) ident(x) ident(y) :=
  match type of H with
  | mbind _ ?r = Ok _ =>
      destruct r as [[x y]| |] eqn:E; [|discriminate H..];
      cbn [mbind Result_bind] in H
  end.

Section Cells.

Variable compileClosure : ClosureDecl → gmap string Loc → Code.
Variable compileMethod : ClosureDecl → ClassRef → gmap string Loc → Code.
Variable nativeClosure : nat → Obj → list Obj → State → Result (Obj * State).
Variable nativeMethod :
  nat → Obj → Selector → list Obj → State → Result (Obj * State).

Local Abbreviation evaluate :=
  (evaluate compileClosure compileMethod nativeClosure nativeMethod).
Local Abbreviation evaluateExpr :=
  (evaluateExpr compileClosure compileMethod nativeClosure nativeMethod).
Local Abbreviation evaluateArguments :=
  (evaluateArguments compileClosure compileMethod nativeClosure nativeMethod).
Local Abbreviation interpret :=
  (interpret compileClosure compileMethod nativeClosure nativeMethod).
Local Abbreviation interpretStatements :=
  (interpretStatements compileClosure compileMethod nativeClosure
                       nativeMethod).
Local Abbreviation interpretClosure :=
  (interpretClosure compileClosure compileMethod nativeClosure nativeMethod).
Local Abbreviation interpretMethod :=
  (interpretMethod compileClosure compileMethod nativeClosure nativeMethod).
Local Abbreviation callCompiledClosure :=
  (callCompiledClosure compileClosure compileMethod nativeClosure
                       nativeMethod).
Local Abbreviation callCompiledMethod :=
  (callCompiledMethod compileClosure compileMethod nativeClosure
                      nativeMethod).
Local Abbreviation returned :=
  (returned compileClosure compileMethod nativeClosure nativeMethod).
Local Abbreviation later :=
  (later compileClosure compileMethod nativeClosure nativeMethod).

Lemma tierUpClosure_calm d self st st' :
  tierUpClosure compileClosure d self st = Ok st' → calm st st'.
Proof.
  unfold tierUpClosure. case_decide; [|intros [= <-]; apply calm_refl].
  destruct (setInvoke _ _ _) as [st1| |] eqn:E; [simpl|discriminate..].
  intros [= <-]. eapply calm_trans; [by eapply setInvoke_calm|].
  by apply still_calm.
Qed.

Lemma tierUpMethod_calm d mth cls st st' :
  tierUpMethod compileMethod d mth cls st = Ok st' → calm st st'.
Proof.
  unfold tierUpMethod. case_decide; [|intros [= <-]; apply calm_refl].
  destruct (setFunction _ _ _) as [st1| |] eqn:E; [simpl|discriminate..].
  intros [= <-]. eapply calm_trans; [by eapply setFunction_calm|].
  by apply still_calm.
Qed.

(** The assignment to the cell at the end of Expression::evaluate. *)
Lemma fill_sound st st0 n r cell rts :
  Value.object (cacheOf st n) = nullptr →
  sound st st0 →
  Value.set (cacheOf st0 n) r (roots st0) = Ok (cell, rts) →
  (wellFormed st → constantValue r st0) →
  sound st (setRoots rts (setCaches (<[n := cell]> (caches st0)) st0)).
Proof.
  intros Hempty [[Hc Hs Hk] Hw] Hset Hr. split; [split|].
  - intros m Hm. unfold cacheOf at 1. simpl.
    rewrite lookup_insert_ne by (intros ->; contradiction).
    by apply Hc.
  - intros o len s Ho. by apply Hs in Ho.
  - intros cls c Hcls Hnil. by apply (Hk cls c).
  - intros Hwf. destruct (Hw Hwf) as [Hplain Hgood]. split; [exact Hplain|].
    intros m. unfold cacheOf. simpl.
    destruct (decide (m = n)) as [->|Hne].
    + rewrite lookup_insert_eq. simpl.
      rewrite (set_object _ _ _ _ _ Hset). right.
      destruct (Hr Hwf) as [Hi|(len & s & Ho)]; [by left|].
      right. by exists len, s.
    + rewrite lookup_insert_ne by congruence.
      destruct (Hgood m) as [Hnull|[Hi|(len & s & Ho)]];
        [by left|right; by left|].
      right. right. by exists len, s.
Qed.

(** Every function of the interpreter, when it returns, has left the
    cells that held a value, the String objects and the classes without
    methods as they were, and has kept the state well formed; the value
    of a constant expression is a small integer or a string. *)
Lemma interpreter_sound :
  soundClosureCode nativeClosure → soundMethodCode nativeMethod →
  ∀ fuel,
    (∀ e st r st',
       evaluate fuel e st = Ok (r, st') →
       sound st st'
       ∧ (wellFormed st → isConstantExpression e = true →
          constantValue r st'))
    ∧ (∀ e st r st',
         evaluateExpr fuel e st = Ok (r, st') →
         sound st st'
         ∧ (wellFormed st → isConstantExpression e = true →
            constantValue r st'))
    ∧ (∀ es i st r st',
         evaluateArguments fuel es i st = Ok (r, st') → sound st st')
    ∧ (∀ code closure argv st r st',
         callCompiledClosure fuel code closure argv st = Ok (r, st') →
         sound st st')
    ∧ (∀ code self sel argv st r st',
         callCompiledMethod fuel code self sel argv st = Ok (r, st') →
         sound st st')
    ∧ (∀ d self args st r st',
         interpretClosure fuel d self args st = Ok (r, st') → sound st st')
    ∧ (∀ d mth self sel args st r st',
         interpretMethod fuel d mth self sel args st = Ok (r, st') →
         sound st st')
    ∧ (∀ s st st', interpret fuel s st = Ok st' → sound st st')
    ∧ (∀ ss st st', interpretStatements fuel ss st = Ok st' → sound st st').
Proof.
  intros Hnc Hnm. induction fuel as [|fuel IH].
  { repeat apply conj; intros; discriminate. }
  destruct IH as (IHev & IHex & IHargs & IHcc & IHcm & IHic & IHim & IHin
                  & IHss).
  repeat apply conj.
  - (* evaluate *)
    intros e st r st' H. rewrite evaluate_eq in H.
    destruct (negb _) eqn:Hhit.
    { injection H as <- <-. split; [apply sound_refl|].
      intros [_ Hgood] _. destruct (Hgood (nodeOf e)) as [Hnull|Hv];
        [|exact Hv].
      rewrite Hnull in Hhit. discriminate. }
    assert (Value.object (cacheOf st (nodeOf e)) = nullptr) as Hempty.
    { apply negb_false_iff, Z.eqb_eq in Hhit. exact Hhit. }
    dbindp H E r0 st0. apply IHex in E as [Hs Hv].
    destruct (isConstantExpression e).
    + dbindp H E' cell rts. injection H as <- <-. split.
      * eapply fill_sound; eauto.
      * intros Hwf _. destruct (Hv Hwf eq_refl) as [Hi|(len & s & Ho)];
          [by left|]. right. by exists len, s.
    + injection H as <- <-. split; [assumption|discriminate].
  - (* evaluateExpr *)
    intros e st r st' H. rewrite evaluateExpr_eq in H. destruct e.
    + injection H as <- <-. split; [apply sound_refl|].
      intros _ _. left. apply isInteger_createSmallInteger.
    + match type of H with
      | Ok (gcAlloc ?x ?s) = _ =>
          pose proof (gcAlloc_calm x s) as G;
          pose proof (objectAt_gcAlloc x s) as Hnew;
          destruct (gcAlloc x s)
      end.
      injection H as <- <-. split; [by apply calm_sound|].
      intros _ _. right. eauto.
    + dbindp H E1 LHS st1. dbindp H E2 RHS st2.
      apply IHev in E1 as [Hs1 Hv1]. apply IHev in E2 as [Hs2 Hv2].
      pose proof (sound_trans _ _ _ Hs1 Hs2) as Hs12.
      destruct (_ || _).
      * dbind H E3 c. injection H as <- <-. split; [assumption|].
        intros _ _. left. apply isInteger_createSmallInteger.
      * dbind H E3 name.
        match type of H with
        | context [lookupSelector ?x ?s] =>
            pose proof (lookupSelector_calm x s) as G;
            destruct (lookupSelector x s) as [sel st3]
        end.
        simpl in G. dbind H E4 mth. split.
        { apply IHcm in H. apply (sound_trans _ _ _ Hs12).
          apply (sound_trans _ st3); [by apply calm_sound|assumption]. }
        intros Hwf Hconst. exfalso. simpl in Hconst.
        apply andb_true_iff in Hconst as [Hl Hr].
        destruct Hs1 as [Hk1 Hw1]. destruct Hs2 as [Hk2 Hw2].
        pose proof (Hw2 (Hw1 Hwf)) as Hwf2.
        apply calm_sound in G as [Hk3 Hw3].
        destruct (Hw3 Hwf2) as [Hplain _].
        eapply (plain_no_method LHS sel st3 mth Hplain); [|exact E4].
        eapply constantValue_kept; [exact Hk3|].
        eapply constantValue_kept; [exact Hk2|]. by apply Hv1.
    + dbind H E1 addr. dbind H E2 v. injection H as <- <-.
      split; [apply sound_refl|discriminate].
    + dbindp H E1 obj st1. dbind H E2 u. dbindp H E3 argv st2.
      apply IHev in E1 as [Hs1 _]. apply IHargs in E3.
      split; [|discriminate].
      apply (sound_trans _ _ _ Hs1). apply (sound_trans _ _ _ E3).
      cbv zeta in H.
      apply (sound_trans _ (setCurrentContext st2));
        [by apply calm_sound, still_calm|].
      destruct method as [name|].
      * match type of H with
        | context [lookupSelector ?x ?s] =>
            pose proof (lookupSelector_calm x s) as G;
            destruct (lookupSelector x s) as [sel st3]
        end.
        simpl in G. dbind H E4 u'. dbind H E5 mth. apply IHcm in H.
        apply (sound_trans _ st3); [by apply calm_sound|assumption].
      * destruct (objectAt _ _) as [[| ? ? ? ? |]|]; try discriminate.
        by apply IHcc in H.
    + dbind H E1 cls. split; [|discriminate].
      by eapply calm_sound, newObject_calm.
    + split; [|discriminate]. by eapply calm_sound, evaluateClosureDecl_calm.
  - (* evaluateArguments *)
    intros es i st r st' H. rewrite evaluateArguments_eq in H.
    destruct es as [|arg es]; [injection H as <- <-; apply sound_refl|].
    dbind H E0 u. dbindp H E1 v st1. dbindp H E2 vs st2.
    injection H as <- <-.
    apply IHev in E1 as [E1 _]. apply IHargs in E2. by eapply sound_trans.
  - (* callCompiledClosure *)
    intros code closure argv st r st' H.
    rewrite callCompiledClosure_eq in H. destruct code as [n|n|k];
      [|discriminate|by eapply Hnc].
    case_decide; [discriminate|].
    destruct (objectAt _ _) as [[| ? ? ? ? |]|]; try discriminate.
    dbind H E0 u. apply IHic in H.
    eapply sound_trans; [|exact H]. by apply calm_sound, still_calm.
  - (* callCompiledMethod *)
    intros code self sel argv st r st' H.
    rewrite callCompiledMethod_eq in H. destruct code as [n|n|k];
      [discriminate| |by eapply Hnm].
    case_decide; [discriminate|].
    dbind H E1 cls. dbind H E2 mth. dbind H E3 m. dbind H E4 AST.
    dbind H E5 u. apply IHim in H.
    eapply sound_trans; [|exact H]. by apply calm_sound, still_calm.
  - (* interpretClosure *)
    intros d self args st r st' H. rewrite interpretClosure_eq in H.
    cbv zeta in H.
    dbind H E1 st1. apply tierUpClosure_calm, calm_sound in E1.
    dbind H E2 st2.
    assert (sound st st2) as Hpre.
    { apply (sound_trans _ (countExecution d st));
        [by apply calm_sound, still_calm|].
      apply (sound_trans _ _ _ E1).
      destruct (compiledClosure _) as [code|].
      - dbind E2 E3 argv. dbindp E2 E4 r1 st3. injection E2 as <-.
        by apply IHcc in E4.
      - injection E2 as <-. apply sound_refl. }
    dbind H E3 st3. dbind H E4 st4. dbind H E5 st5.
    apply bindAll_calm, calm_sound in E3, E4. apply IHss in E5.
    apply (sound_trans _ _ _ Hpre).
    apply (sound_trans _ (pushSymbols st2));
      [by apply calm_sound, still_calm|].
    apply (sound_trans _ _ _ E3). apply (sound_trans _ _ _ E4).
    apply (sound_trans _ _ _ E5).
    injection H as <- <-. by apply calm_sound, still_calm.
  - (* interpretMethod *)
    intros d mth self sel args st r st' H. rewrite interpretMethod_eq in H.
    cbv zeta in H.
    dbind H E1 cls. dbind H E2 st2. apply tierUpMethod_calm, calm_sound in E2.
    assert (sound st st2) as Hpre.
    { apply (sound_trans _ (setNodes (check d (nodes st)) st));
        [by apply calm_sound, still_calm|].
      apply (sound_trans _ (countExecution d
                              (setNodes (check d (nodes st)) st)));
        [by apply calm_sound, still_calm|].
      exact E2. }
    apply (sound_trans _ _ _ Hpre).
    destruct (compiledClosure _) as [code|].
    + dbind H E3 argv. by apply IHcm in H.
    + dbind H E3 st3. dbind H E4 st4. dbind H E5 st5. dbind H E6 c.
      dbind H E7 st7. dbind H E8 st8.
      apply bindAll_calm, calm_sound in E3, E7. apply IHss in E8.
      apply setSymbolAddr_calm, calm_sound in E4, E5.
      apply (sound_trans _ (pushSymbols st2));
        [by apply calm_sound, still_calm|].
      apply (sound_trans _ _ _ E3).
      eapply sound_trans; [|eapply sound_trans; [exact E4|]].
      { by apply calm_sound, still_calm. }
      apply (sound_trans _ _ _ E5). apply (sound_trans _ _ _ E7).
      apply (sound_trans _ _ _ E8).
      injection H as <- <-. by apply calm_sound, still_calm.
  - (* interpret *)
    intros s st st' H. rewrite interpret_eq in H. destruct s.
    + dbindp H E v st1. injection H as <-. by apply IHev in E as [E _].
    + destruct init as [e|].
      * dbindp H E v st1. apply IHev in E as [E _].
        apply setSymbol_calm, calm_sound in H. by eapply sound_trans.
      * cbn [mbind Result_bind] in H. by apply setSymbol_calm, calm_sound in H.
    + dbindp H E v st1. apply IHev in E as [E _].
      apply setSymbol_calm, calm_sound in H. by eapply sound_trans.
    + dbindp H E v st1. apply IHev in E as [E _]. injection H as <-.
      eapply sound_trans; [exact E|]. by apply calm_sound, still_calm.
    + dbindp H E v st1. apply IHev in E as [E _].
      apply (sound_trans _ _ _ E).
      destruct (truthy _); [by apply IHss in H|].
      injection H as <-. apply sound_refl.
    + dbindp H E v st1. apply IHev in E as [E _].
      apply (sound_trans _ _ _ E).
      destruct (truthy _); [|injection H as <-; apply sound_refl].
      dbind H E2 st2. apply IHss in E2. apply IHin in H.
      by eapply sound_trans.
    + cbv zeta in H. dbindp H E ms st1. injection H as <-.
      apply buildMethods_calm, calm_sound in E.
      eapply sound_trans; [exact E|]. apply calm_sound, registerClass_calm.
  - (* interpretStatements *)
    intros ss st st' H. destruct ss as [|s ss].
    + injection H as <-. apply sound_refl.
    + rewrite interpretStatements_cons in H.
      destruct (isReturning _); [injection H as <-; apply sound_refl|].
      dbind H E st1. apply IHin in E. apply IHss in H. by eapply sound_trans.
Qed.

Lemma later_trans st1 st2 st3 : later st1 st2 → later st2 st3 → later st1 st3.
Proof.
  intros H12 H23. induction H12; eauto using later_run, later_quiet, later_fill.
Qed.

Lemma later_calm st st' : calm st st' → later st st'.
Proof. intros [Hc _]. eapply later_quiet; [exact Hc|apply later_now]. Qed.

Lemma later_still st st' : caches st' = caches st → later st st'.
Proof. intros Hc. eapply later_quiet; [exact Hc|apply later_now]. Qed.

Lemma later_evaluate fuel e st r st' :
  evaluate fuel e st = Ok (r, st') → later st st'.
Proof.
  intros H. apply (later_run _ _ _ _ (Evaluate fuel e st) st st' st');
    [reflexivity|simpl; by rewrite H|apply later_now].
Qed.

Lemma later_evaluateArguments fuel es i st r st' :
  evaluateArguments fuel es i st = Ok (r, st') → later st st'.
Proof.
  intros H.
  apply (later_run _ _ _ _ (EvaluateArguments fuel es i st) st st' st');
    [reflexivity|simpl; by rewrite H|apply later_now].
Qed.

Lemma later_callCompiledClosure fuel code closure argv st r st' :
  callCompiledClosure fuel code closure argv st = Ok (r, st') → later st st'.
Proof.
  intros H.
  apply (later_run _ _ _ _ (CallCompiledClosure fuel code closure argv st)
           st st' st');
    [reflexivity|simpl; by rewrite H|apply later_now].
Qed.

Lemma later_interpret fuel s st st' :
  interpret fuel s st = Ok st' → later st st'.
Proof.
  intros H. apply (later_run _ _ _ _ (Interpret fuel s st) st st' st');
    [reflexivity|simpl; by rewrite H|apply later_now].
Qed.

Lemma later_interpretStatements fuel ss st st' :
  interpretStatements fuel ss st = Ok st' → later st st'.
Proof.
  intros H.
  apply (later_run _ _ _ _ (InterpretStatements fuel ss st) st st' st');
    [reflexivity|simpl; by rewrite H|apply later_now].
Qed.

(** The state in which an activation is called comes after the state in
    which its caller was entered. *)
Lemma calls_later a b :
  calls compileClosure compileMethod nativeClosure nativeMethod a b →
  later (entry a) (entry b).
Proof.
  intros Hcalls. destruct Hcalls; simpl.
  - apply later_now.
  - apply later_now.
  - by eapply later_evaluate.
  - eapply later_trans; [by eapply later_evaluate|].
    eapply later_trans; [by eapply later_evaluate|].
    match goal with
    | H : lookupSelector ?x ?s = _ |- _ =>
        pose proof (lookupSelector_calm x s) as G; rewrite H in G
    end.
    by apply later_calm.
  - apply later_now.
  - by eapply later_evaluate.
  - eapply later_trans; [by eapply later_evaluate|].
    eapply later_trans; [by eapply later_evaluateArguments|].
    by apply later_still.
  - eapply later_trans; [by eapply later_evaluate|].
    eapply later_trans; [by eapply later_evaluateArguments|].
    eapply later_trans; [by apply (later_still _ (setCurrentContext st2))|].
    match goal with
    | H : lookupSelector ?x ?s = _ |- _ =>
        pose proof (lookupSelector_calm x s) as G; rewrite H in G
    end.
    by apply later_calm.
  - apply later_now.
  - by eapply later_evaluate.
  - by apply later_still.
  - by apply later_still.
  - eapply later_trans; [by apply (later_still _ (countExecution d st))|].
    by eapply later_calm, tierUpClosure_calm.
  - eapply later_trans; [by apply (later_still _ (countExecution d st))|].
    eapply later_trans; [by eapply later_calm, tierUpClosure_calm|].
    apply (later_trans _ st2).
    { destruct (compiledClosure _) as [code|].
      - match goal with H : mbind _ _ = Ok st2 |- _ => rename H into E end.
        dbind E E3 argv. dbindp E E4 r1 st5. injection E as <-.
        by eapply later_callCompiledClosure.
      - match goal with H : Ok _ = Ok st2 |- _ => injection H as <- end.
        apply later_now. }
    eapply later_trans; [by apply (later_still _ (pushSymbols st2))|].
    eapply later_trans; [by eapply later_calm, bindAll_calm|].
    by eapply later_calm, bindAll_calm.
  - eapply later_trans;
      [by apply (later_still _ (setNodes (check d (nodes st)) st))|].
    eapply later_trans;
      [by apply (later_still _ (countExecution d
                                  (setNodes (check d (nodes st)) st)))|].
    by eapply later_calm, tierUpMethod_calm.
  - eapply later_trans;
      [by apply (later_still _ (setNodes (check d (nodes st)) st))|].
    eapply later_trans;
      [by apply (later_still _ (countExecution d
                                  (setNodes (check d (nodes st)) st)))|].
    eapply later_trans; [by eapply later_calm, tierUpMethod_calm|].
    eapply later_trans; [by apply (later_still _ (pushSymbols st1))|].
    eapply later_trans; [by eapply later_calm, bindAll_calm|].
    eapply later_trans;
      [by apply (later_still _
                   (setStack (stack st2
                              ++ [self; createSmallInteger (Z.of_nat sel)])
                             st2))|].
    eapply later_trans; [by eapply later_calm, setSymbolAddr_calm|].
    eapply later_trans; [by eapply later_calm, setSymbolAddr_calm|].
    by eapply later_calm, bindAll_calm.
  - apply later_now.
  - apply later_now.
  - apply later_now.
  - apply later_now.
  - apply later_now.
  - by eapply later_evaluate.
  - apply later_now.
  - by eapply later_evaluate.
  - eapply later_trans; [by eapply later_evaluate|].
    by eapply later_interpretStatements.
  - apply later_now.
  - by eapply later_interpret.
Qed.

Lemma rtc_calls_later a b :
  rtc (calls compileClosure compileMethod nativeClosure nativeMethod) a b →
  later (entry a) (entry b).
Proof.
  induction 1 as [a|a a' b Hcall _ IH]; [apply later_now|].
  eapply later_trans; [by apply calls_later|exact IH].
Qed.

Lemma returned_sound a st' :
  soundClosureCode nativeClosure → soundMethodCode nativeMethod →
  returned a = Some st' → sound (entry a) st'.
Proof.
  intros Hnc Hnm.
  destruct a as [fuel e st|fuel e st|fuel es i st|fuel code closure argv st
                |fuel code self sel argv st|fuel d self args st
                |fuel d mth self sel args st|fuel s st|fuel ss st];
    destruct (interpreter_sound Hnc Hnm fuel)
      as (Hev & Hex & Hargs & Hcc & Hcm & Hic & Him & Hin & Hss);
    simpl; unfold stateOf.
  - destruct (evaluate fuel e st) as [[r st1]| |] eqn:E; [|discriminate..].
    intros [= <-]. by apply Hev in E as [E _].
  - destruct (evaluateExpr fuel e st) as [[r st1]| |] eqn:E;
      [|discriminate..].
    intros [= <-]. by apply Hex in E as [E _].
  - destruct (evaluateArguments fuel es i st) as [[r st1]| |] eqn:E;
      [|discriminate..].
    intros [= <-]. by apply Hargs in E.
  - destruct (callCompiledClosure fuel code closure argv st)
      as [[r st1]| |] eqn:E; [|discriminate..].
    intros [= <-]. by apply Hcc in E.
  - destruct (callCompiledMethod fuel code self sel argv st)
      as [[r st1]| |] eqn:E; [|discriminate..].
    intros [= <-]. by apply Hcm in E.
  - destruct (interpretClosure fuel d self args st) as [[r st1]| |] eqn:E;
      [|discriminate..].
    intros [= <-]. by apply Hic in E.
  - destruct (interpretMethod fuel d mth self sel args st)
      as [[r st1]| |] eqn:E; [|discriminate..].
    intros [= <-]. by apply Him in E.
  - destruct (interpret fuel s st) as [st1| |] eqn:E; [|discriminate..].
    intros [= <-]. by apply Hin in E.
  - destruct (interpretStatements fuel ss st) as [st1| |] eqn:E;
      [|discriminate..].
    intros [= <-]. by apply Hss in E.
Qed.

(** A cell that holds a value holds it in every later state. *)
Lemma later_cell st1 st2 n :
  soundClosureCode nativeClosure → soundMethodCode nativeMethod →
  later st1 st2 →
  Value.object (cacheOf st1 n) ≠ nullptr →
  cacheOf st2 n = cacheOf st1 n.
Proof.
  intros Hnc Hnm Hlater.
  induction Hlater as [st|a st st1 st2 Hentry Hret _ IH
                      |st st1 st2 Hquiet _ IH
                      |st m cell rts st2 Hempty _ IH]; intros Hn.
  - reflexivity.
  - subst st. destruct (returned_sound a st1 Hnc Hnm Hret) as [[Hc _ _] _].
    rewrite IH by (by rewrite Hc). by apply Hc.
  - rewrite IH by (by rewrite (cacheOf_caches _ _ n Hquiet)).
    by apply cacheOf_caches.
  - assert (cacheOf (setRoots rts (setCaches (<[m := cell]> (caches st)) st))
              n = cacheOf st n) as Hsame.
    { unfold cacheOf at 1. simpl.
      rewrite lookup_insert_ne by (intros ->; contradiction). reflexivity. }
    rewrite IH by (by rewrite Hsame). exact Hsame.
Qed.

Lemma constantValue_not_null v st : constantValue v st → v ≠ nullptr.
Proof.
  intros [Hi|(len & s & Ho)] ->; [discriminate|].
  apply objectAt_Some in Ho as (Hpos & _). unfold nullptr in Hpos. lia.
Qed.


End Cells.

(** ** The cells at concrete inputs *)

Lemma exampleNativeClosure_sound : soundClosureCode exampleNativeClosure.
Proof.
  intros k closure argv st r st'. unfold exampleNativeClosure, countRun.
  destruct (setSymbol _ _ st) as [st1| |] eqn:E; [|discriminate..].
  intros [= _ <-]. by eapply calm_sound, setSymbol_calm.
Qed.

Lemma exampleNativeMethod_sound : soundMethodCode exampleNativeMethod.
Proof.
  intros k self sel argv st r st'. unfold exampleNativeMethod, countRun.
  destruct (setSymbol _ _ st) as [st1| |] eqn:E; [|discriminate..].
  intros [= _ <-]. by eapply calm_sound, setSymbol_calm.
Qed.

Lemma initialState_wellFormed : wellFormed initialState.
Proof.
  split.
  - intros cls [->| ->]; eexists; (split; [reflexivity|split; reflexivity]).
  - intros n. left. reflexivity.
Qed.

